(** * cmdp: a console command processor

    A shallow embedding of [cmdp.go] and a verification of its
    specification.  The Go standard-library functions the package calls
    ([strings.TrimSpace], [strings.SplitAfterN], [strings.ToLower],
    [strconv.Itoa], [fmt.Errorf] with the verb [%s]) are written out in
    modules named after their Go packages; the package itself is the module
    [cmdp].

    Strings.  A Go string is modelled by the sequence of its code points
    (Go's [rune], an [int32], here a [Z]); strings that are not valid UTF-8
    are outside the model.  A string literal of the source is written
    [str "..."]; all literals of [cmdp.go] are ASCII, where code point and
    byte coincide.  [len(s)], which counts bytes, is [len s], the sum of
    the UTF-8 widths of the code points.  Go's case table above ASCII is a
    parameter of the development.

    Effects.  The caller's parsers and runners act on a backend state of
    any type; [cmdParseRun] runs in a monad of state and panic over a
    machine that records the calls made and the text written.  The
    goroutine of [processCmdLn] is a state machine driven by what its
    [select] receives. *)

From Stdlib Require Import ZArith String Ascii DecimalString DecimalNat List Lia Bool.
From stdpp Require Import base list gmap.

Local Open Scope Z_scope.

Abbreviation rune := Z.
Abbreviation gostring := (list rune).

(** A literal of the source. *)
Definition str (s : string) : gostring :=
  map (fun a => Z.of_N (N_of_ascii a)) (list_ascii_of_string s).

(** The escapes ["\t"] and ["\n"] of Go literals. *)
Definition tab : gostring := [9].
Definition nl : gostring := [10].

(** [a == b] on Go strings. *)
Definition string_eq (a b : gostring) : bool := bool_decide (a = b).

(** * Package unicode/utf8 *)
Module utf8.

(** [utf8.RuneLen] of a code point: the number of bytes of its encoding. *)
Definition RuneLen (r : rune) : nat :=
  if r <? 128 then 1%nat
  else if r <? 2048 then 2%nat
  else if r <? 65536 then 3%nat
  else 4%nat.

End utf8.

(** [len(s)] of a Go string: its length in bytes. *)
Definition len (s : gostring) : nat :=
  fold_right (fun r n => (utf8.RuneLen r + n)%nat) 0%nat s.

(** * Package unicode *)
Module unicode.

Definition MaxASCII : rune := 127.
Definition MaxLatin1 : rune := 255.

(** The table [White_Space] outside Latin-1. *)
Definition White_Space_excludingLatin (r : rune) : bool :=
  (r =? 5760) || ((8192 <=? r) && (r <=? 8202)) || (r =? 8232) || (r =? 8233)
  || (r =? 8239) || (r =? 8287) || (r =? 12288).

(** [unicode.IsSpace]: '\t', '\n', '\v', '\f', '\r', ' ', U+0085, U+00A0 in
    Latin-1, the table [White_Space] above it. *)
Definition IsSpace (r : rune) : bool :=
  if (0 <=? r) && (r <=? MaxLatin1) then
    (r =? 9) || (r =? 10) || (r =? 11) || (r =? 12) || (r =? 13) || (r =? 32)
    || (r =? 133) || (r =? 160)
  else White_Space_excludingLatin r.

(** [unicode.ToLower].  The ASCII branch is Go's; above ASCII Go consults
    its table [CaseRanges] through [To(LowerCase, r)], which is the
    parameter [toLowerCase]. *)
Definition ToLower (toLowerCase : rune -> rune) (r : rune) : rune :=
  if r <=? MaxASCII then
    if (65 <=? r) && (r <=? 90) then r + (97 - 65) else r
  else toLowerCase r.

(** A fragment of [CaseRanges] used to run the development on concrete
    inputs: the Latin-1 capitals U+00C0..U+00DE (U+00D7, the multiplication
    sign, is not a letter), which lower-case by adding 32. *)
Definition latin1LowerCase (r : rune) : rune :=
  if (192 <=? r) && (r <=? 222) && negb (r =? 215) then r + 32 else r.

End unicode.

(** * Package strings *)
Module strings.

(** [strings.TrimLeftFunc]. *)
Fixpoint TrimLeftFunc (s : gostring) (f : rune -> bool) : gostring :=
  match s with
  | [] => []
  | r :: s' => if f r then TrimLeftFunc s' f else s
  end.

(** [strings.TrimRightFunc]. *)
Definition TrimRightFunc (s : gostring) (f : rune -> bool) : gostring :=
  rev (TrimLeftFunc (rev s) f).

(** [strings.TrimFunc]. *)
Definition TrimFunc (s : gostring) (f : rune -> bool) : gostring :=
  TrimRightFunc (TrimLeftFunc s f) f.

(** [strings.TrimSpace]: [TrimFunc(s, unicode.IsSpace)] (its ASCII fast
    path computes the same). *)
Definition TrimSpace (s : gostring) : gostring := TrimFunc s unicode.IsSpace.

(** [strings.ToLower]: [Map(unicode.ToLower, s)]. *)
Definition ToLower (toLowerCase : rune -> rune) (s : gostring) : gostring :=
  map (unicode.ToLower toLowerCase) s.

(** [strings.HasPrefix]. *)
Fixpoint HasPrefix (s prefix : gostring) {struct prefix} : bool :=
  match prefix, s with
  | [], _ => true
  | _ :: _, [] => false
  | p :: prefix', r :: s' => (r =? p) && HasPrefix s' prefix'
  end.

(** [strings.Index]: the index of the first instance of [substr] in [s];
    Go's -1 is [None]. *)
Fixpoint Index (s substr : gostring) : option nat :=
  if HasPrefix s substr then Some 0%nat
  else match s with
       | [] => None
       | _ :: s' => S <$> Index s' substr
       end.

(** [strings.Contains]: [Index(s, substr) >= 0]. *)
Definition Contains (s substr : gostring) : bool :=
  match Index s substr with Some _ => true | None => false end.

(** [strings.genSplit] for a non-empty separator and a count [n >= 0]: at
    most [n] pieces, the last one the unsplit rest; [sepSave] runes of the
    separator stay at the end of each piece. *)
Fixpoint genSplit (s sep : gostring) (sepSave : nat) (n : nat) : list gostring :=
  match n with
  | O => []
  | S O => [s]
  | S n' =>
      match Index s sep with
      | None => [s]
      | Some m =>
          take (m + sepSave) s :: genSplit (drop (m + length sep) s) sep sepSave n'
      end
  end.

(** [strings.SplitAfterN]. *)
Definition SplitAfterN (s sep : gostring) (n : nat) : list gostring :=
  genSplit s sep (length sep) n.

End strings.

(** * Package strconv *)
Module strconv.

(** [strconv.Itoa] on a slice index (never negative). *)
Definition Itoa (i : nat) : gostring :=
  str (NilEmpty.string_of_uint (Nat.to_uint i)).

End strconv.

(** * Package fmt *)
Module fmt.

(** A Go [error] value: [nil], or an error with its message
    ([fmt.Errorf] builds an error whose [Error()] is the formatted text). *)
Abbreviation error := (option gostring).

(** The verb [%s] applied to an [error] operand: the message, and for the
    nil interface value Go's bad-verb text. *)
Definition verb_s (e : error) : gostring :=
  match e with
  | Some msg => msg
  | None => str "%!s(<nil>)"
  end.

End fmt.

Abbreviation error := fmt.error.

(** A [[]string]: nil, or a slice with its elements. *)
Abbreviation args_t := (option (list gostring)).

(** * Package bufio *)
Module bufio.

(** A [*bufio.Reader]: the data its source still has to deliver, and the
    error with which the source fails once the data is read ([io.EOF], of
    text ["EOF"], at the end of a file); [None] is a source that delivers
    no error and blocks instead, as a terminal does. *)
Record Reader : Type := mkReader {
  pending : gostring;
  fails : option gostring
}.

(** The data up to and including the first [delim], and the rest. *)
Fixpoint cut (delim : rune) (s : gostring) : option (gostring * gostring) :=
  match s with
  | [] => None
  | r :: s' =>
      if r =? delim then Some ([r], s')
      else match cut delim s' with
           | Some (line, rest) => Some (r :: line, rest)
           | None => None
           end
  end.

(** [func (b *Reader) ReadString(delim byte) (string, error)], with the
    reader after the call: the data up to and including the delimiter; or,
    when the source fails first, the data read before the error and the
    error; or no return ([None]) when the source blocks first. *)
Definition ReadString (b : Reader) (delim : rune)
    : option ((gostring * error) * Reader) :=
  match cut delim (pending b) with
  | Some (line, rest) => Some ((line, None), mkReader rest (fails b))
  | None =>
      match fails b with
      | Some err => Some ((pending b, Some err), mkReader [] (fails b))
      | None => None
      end
  end.

End bufio.

(** * Package cmdp *)
Module cmdp.

Section Processor.

(** The state of the backend on which the caller's [Parse] and [Run]
    closures act, the type of [*bufio.Reader] values, the reader on
    [os.Stdin], and Go's case table [To(LowerCase, r)]. *)
Context {W : Type} {Reader : Type}.
Variable Stdin : Reader.
Variable toLowerCase : rune -> rune.

(** [len(args)] of a [[]string], which may be nil. *)
Definition args_len (args : args_t) : nat :=
  match args with
  | None => 0%nat
  | Some l => length l
  end.

(** A value of interface type [Parser]: its method [Parse], run on the
    backend state. *)
Definition Parser : Type := gostring -> W -> (args_t * error) * W.

(** A value of interface type [Runner]: a [*helpRunner] (the address of a
    [helpRunner] object), which [validate] tells apart by a type assertion,
    or any other implementation, given by its method [Run]. *)
Inductive Runner : Type :=
| helpRunner_at (hr : nat)
| Runner_of (run : args_t -> W -> error * W).

(** [type Cdef struct]; a nil interface value is [None]. *)
Record Cdef : Type := mkCdef {
  NmShort : gostring;
  NmLong : gostring;
  ArgDesc : gostring;
  Help : gostring;
  Parse : option Parser;
  Run : option Runner
}.

(** [type cdef struct], which embeds [Cdef]. *)
Record cdef : Type := mkcdef {
  cdef_Cdef : Cdef;
  nmShortL : gostring;
  nmLongL : gostring
}.

(** The zero values [Cdef{}] and [cdef{}]. *)
Definition Cdef_zero : Cdef := mkCdef [] [] [] [] None None.
Definition cdef_zero : cdef := mkcdef Cdef_zero [] [].

(** [type cmds struct]. *)
Record cmds : Type := mkcmds { cmmds : list cdef }.

(** The [helpRunner] objects: at the address of each, the [cmds] its field
    [cs] points to; an address with no entry has [cs == nil].  A [cmds] is
    written by [validate] only, so the store holds it as it is when
    [validate] returns. *)
Abbreviation helpers := (gmap nat cmds).

(** [func RunHelp() Runner]: [&helpRunner{}], the new object being at
    address [hr]. *)
Definition RunHelp (hr : nat) : Runner := helpRunner_at hr.

(** [func (pn) Parse(string) ([]string, error)]. *)
Definition pn_Parse : Parser := fun _ w => ((None, None), w).

(** [func ParseNone() Parser]. *)
Definition ParseNone : Parser := pn_Parse.

(** [func errorsConcat]: [fmt.Errorf("%s%s\n", errs, err)]. *)
Definition errorsConcat (errs err : error) : error :=
  Some (fmt.verb_s errs ++ fmt.verb_s err ++ nl).

(** The five messages of [cdefVerify], each ending in the entry's
    reference [cdefRef]. *)
Definition msgLong (cdefRef : gostring) : gostring :=
  str "Please specify long command name fo: " ++ cdefRef.
Definition msgShort (cdefRef : gostring) : gostring :=
  str "Please specify a short name whose length doesn't exceed its corresponding long one for: "
  ++ cdefRef.
Definition msgParse (cdefRef : gostring) : gostring :=
  str "Please specify a Parse function for command: " ++ cdefRef.
Definition msgRun (cdefRef : gostring) : gostring :=
  str "Please specify a Run function for command: " ++ cdefRef.
Definition msgHelp (cdefRef : gostring) : gostring :=
  str "Please specify a Help text for command: " ++ cdefRef.

(** [func cdefVerify(c Cdef, altNm string) (errs error)]. *)
Definition cdefVerify (c : Cdef) (altNm : gostring) : error :=
  let errs : error := None in
  let cdefRef := NmLong c in
  let '(cdefRef, errs) :=
    if string_eq (NmLong c) (str "") then
      let cdefRef := altNm in
      (cdefRef, errorsConcat errs (Some (msgLong cdefRef)))
    else if (len (NmLong c) <? len (NmShort c))%nat then
      (cdefRef, errorsConcat errs (Some (msgShort cdefRef)))
    else (cdefRef, errs) in
  let errs :=
    match Parse c with
    | None => errorsConcat errs (Some (msgParse cdefRef))
    | Some _ => errs
    end in
  let errs :=
    match Run c with
    | None => errorsConcat errs (Some (msgRun cdefRef))
    | Some _ => errs
    end in
  let errs :=
    if string_eq (Help c) (str "") then errorsConcat errs (Some (msgHelp cdefRef))
    else errs in
  errs.

(** The three assignments to [cs.cmmds[i]] in the loop of [validate]. *)
Definition set_Cdef (cPub : Cdef) (c : cdef) : cdef :=
  mkcdef cPub (nmShortL c) (nmLongL c).
Definition set_nmShortL (s : gostring) (c : cdef) : cdef :=
  mkcdef (cdef_Cdef c) s (nmLongL c).
Definition set_nmLongL (s : gostring) (c : cdef) : cdef :=
  mkcdef (cdef_Cdef c) (nmShortL c) s.

(** The body of [for i, cPub := range cds] in [validate], from index [i]
    on.  [cmmds] is [cs.cmmds]; [patched] collects the addresses of the
    [helpRunner] objects whose [cs] was set to [cs] by [hlp.patch(cs)]. *)
Fixpoint validate_range (i : nat) (cds : list Cdef) (cmmds : list cdef)
    (errs : error) (patched : list nat) : list cdef * error * list nat :=
  match cds with
  | [] => (cmmds, errs, patched)
  | cPub :: cds' =>
      match cdefVerify cPub (strconv.Itoa i) with
      | Some err =>
          validate_range (S i) cds' cmmds (errorsConcat errs (Some err)) patched
      | None =>
          let cmmds := alter (set_Cdef cPub) i cmmds in
          let cmmds := alter (set_nmShortL (strings.ToLower toLowerCase (NmShort cPub))) i cmmds in
          let cmmds := alter (set_nmLongL (strings.ToLower toLowerCase (NmLong cPub))) i cmmds in
          let patched :=
            match Run <$> (cdef_Cdef <$> cmmds !! i) with
            | Some (Some (helpRunner_at hlp)) => hlp :: patched
            | _ => patched
            end in
          validate_range (S i) cds' cmmds errs patched
      end
  end.

(** [func validate(cds []Cdef) (cs *cmds, errs error)], with the store of
    [helpRunner] objects it writes.  A nil [cs] is [None]. *)
Definition validate (cds : list Cdef) (h : helpers) : (option cmds * error) * helpers :=
  if (length cds <? 1)%nat then ((None, Some (str "commands not defined")), h)
  else
    let '(cmmds, errs, patched) :=
      validate_range 0 cds (replicate (length cds) cdef_zero) None [] in
    let cs := mkcmds cmmds in
    ((Some cs, errs), foldr (fun hlp h => <[hlp := cs]> h) h patched).

(** [func cmdNormalize(cmdln string) (cmdNm string, cmdArg string)]. *)
Definition cmdNormalize (cmdln : gostring) : gostring * gostring :=
  let cmdln := strings.TrimSpace cmdln in
  let cmdls := strings.SplitAfterN cmdln (str " ") 2 in
  let cmdNm := strings.TrimSpace (nth 0 cmdls []) in
  let cmdNm := strings.ToLower toLowerCase cmdNm in
  let cmdArg := if (1 <? length cmdls)%nat then strings.TrimSpace (nth 1 cmdls []) else [] in
  (cmdNm, cmdArg).

(** The error of [cmdSelect]. *)
Definition unknownCommand (cmdNm : gostring) : gostring :=
  str "Error: unknown command: '" ++ cmdNm ++ str "' - try 'h' for help" ++ nl.

(** [func cmdSelect(cmds []cdef, cmdNm string) (cdef, error)]. *)
Fixpoint cmdSelect (cmds : list cdef) (cmdNm : gostring) : cdef * error :=
  match cmds with
  | [] => (cdef_zero, Some (unknownCommand cmdNm))
  | c :: cmds' =>
      if string_eq cmdNm (nmShortL c) || string_eq cmdNm (nmLongL c) then (c, None)
      else cmdSelect cmds' cmdNm
  end.

(** ** The dispatch: effects

    What a call of the package can touch: the backend state of the
    caller's closures, the two output streams, and the [helpRunner]
    objects.  Every call through the [Parser] and [Runner] interfaces and
    every write is recorded, in order, in [events]. *)
Inductive event : Type :=
| EvParse (NmLong_ : gostring) (cmdln : gostring)
| EvRun (NmLong_ : gostring) (args : args_t)
| EvStdout (text : gostring)
| EvStderr (text : gostring).

Record machine : Type := mkmachine {
  backend : W;
  events : list event;
  helps : helpers
}.

(** A computation on the machine that returns an [A] or panics ([None]). *)
Definition M (A : Type) : Type := machine -> option (A * machine).

Definition ret {A : Type} (a : A) : M A := fun m => Some (a, m).
Definition bind {A B : Type} (c : M A) (k : A -> M B) : M B :=
  fun m => match c m with
           | None => None
           | Some (a, m') => k a m'
           end.
Definition panic {A : Type} : M A := fun _ => None.
Definition emit (es : list event) : M unit :=
  fun m => Some (tt, mkmachine (backend m) (events m ++ es) (helps m)).

(** A call of one of the caller's closures. *)
Definition on_backend {A : Type} (f : W -> A * W) : M A :=
  fun m => let '(a, w) := f (backend m) in Some (a, mkmachine w (events m) (helps m)).

(** [hr.cs] dereferenced; a nil [hr.cs] panics. *)
Definition deref_cs (hr : nat) : M cmds :=
  fun m => match helps m !! hr with
           | None => None
           | Some cs => Some (cs, m)
           end.

#[local] Instance M_ret : MRet M := @ret.
#[local] Instance M_bind : MBind M := fun A B k c => bind c k.

(** [fmt.Fprintf(os.Stderr, "%s\n", err)]. *)
Definition Fprintf_Stderr (err : gostring) : M unit := emit [EvStderr (err ++ nl)].

(** [cmd.Parse.Parse(cmdln)]: a call through a nil interface panics. *)
Definition call_Parse (cmd : cdef) (cmdln : gostring) : M (args_t * error) :=
  match Parse (cdef_Cdef cmd) with
  | None => panic
  | Some p =>
      emit [EvParse (NmLong (cdef_Cdef cmd)) cmdln];;
      on_backend (p cmdln)
  end.

(** The two [fmt.Printf] of [helpRunner.Run] for one entry. *)
Definition helpLines (c : cdef) : list event :=
  [ EvStdout (NmShort (cdef_Cdef c) ++ str "," ++ NmLong (cdef_Cdef c) ++ str " "
              ++ ArgDesc (cdef_Cdef c) ++ nl);
    EvStdout (str "    " ++ Help (cdef_Cdef c) ++ nl) ].

(** [func (hr *helpRunner) Run(args []string) error]; [hr.cs.cmmds]
    panics on a nil [hr.cs]. *)
Definition helpRunner_Run (hr : nat) (args : args_t) : M error :=
  emit [EvStdout (str "Help :" ++ nl)];;
  cs ← deref_cs hr;
  emit (concat (map helpLines (cmmds cs)));;
  ret None.

(** [cmd.Run.Run(args)]. *)
Definition call_Run (cmd : cdef) (args : args_t) : M error :=
  match Run (cdef_Cdef cmd) with
  | None => panic
  | Some r =>
      emit [EvRun (NmLong (cdef_Cdef cmd)) args];;
      match r with
      | helpRunner_at hr => helpRunner_Run hr args
      | Runner_of run => on_backend (run args)
      end
  end.

(** [func cmdParseRun(cmds []cdef, cmdLn string)]. *)
Definition cmdParseRun (cmds : list cdef) (cmdLn : gostring) : M unit :=
  let '(cmdNm, cmdArg) := cmdNormalize cmdLn in
  let '(cmd, err) := cmdSelect cmds cmdNm in
  match err with
  | Some e => Fprintf_Stderr e
  | None =>
      '(args, err) ← call_Parse cmd (cmdNm ++ str " " ++ cmdArg);
      match err with
      | Some e => Fprintf_Stderr e
      | None =>
          err ← call_Run cmd args;
          match err with
          | Some e => Fprintf_Stderr e
          | None => ret tt
          end
      end
  end.

(** ** The machine at a panic

    A computation of [M] that panics gives no machine.  What had been
    called and written when the panic came is kept by the computations
    below, which are those above step for step: a step that panics leaves
    the machine as it found it, and what follows it is not run. *)
Definition T (A : Type) : Type := machine -> machine * option A.

Definition step {A : Type} (c : M A) : T A :=
  fun m => match c m with
           | Some (a, m') => (m', Some a)
           | None => (m, None)
           end.

Definition and_then {A B : Type} (c : T A) (k : A -> T B) : T B :=
  fun m => match c m with
           | (m', Some a) => k a m'
           | (m', None) => (m', None)
           end.

(** [cmd.Parse.Parse(cmdln)]. *)
Definition call_Parse_T (cmd : cdef) (cmdln : gostring) : T (args_t * error) :=
  match Parse (cdef_Cdef cmd) with
  | None => step panic
  | Some p =>
      and_then (step (emit [EvParse (NmLong (cdef_Cdef cmd)) cmdln])) (fun _ =>
      step (on_backend (p cmdln)))
  end.

(** [func (hr *helpRunner) Run(args []string) error]. *)
Definition helpRunner_Run_T (hr : nat) (args : args_t) : T error :=
  and_then (step (emit [EvStdout (str "Help :" ++ nl)])) (fun _ =>
  and_then (step (deref_cs hr)) (fun cs =>
  and_then (step (emit (concat (map helpLines (cmmds cs))))) (fun _ =>
  step (ret None)))).

(** [cmd.Run.Run(args)]. *)
Definition call_Run_T (cmd : cdef) (args : args_t) : T error :=
  match Run (cdef_Cdef cmd) with
  | None => step panic
  | Some r =>
      and_then (step (emit [EvRun (NmLong (cdef_Cdef cmd)) args])) (fun _ =>
      match r with
      | helpRunner_at hr => helpRunner_Run_T hr args
      | Runner_of run => step (on_backend (run args))
      end)
  end.

(** [func cmdParseRun(cmds []cdef, cmdLn string)]. *)
Definition cmdParseRun_T (cmds : list cdef) (cmdLn : gostring) : T unit :=
  let '(cmdNm, cmdArg) := cmdNormalize cmdLn in
  let '(cmd, err) := cmdSelect cmds cmdNm in
  match err with
  | Some e => step (Fprintf_Stderr e)
  | None =>
      and_then (call_Parse_T cmd (cmdNm ++ str " " ++ cmdArg)) (fun '(args, err) =>
      match err with
      | Some e => step (Fprintf_Stderr e)
      | None =>
          and_then (call_Run_T cmd args) (fun err =>
          match err with
          | Some e => step (Fprintf_Stderr e)
          | None => step (ret tt)
          end)
      end)
  end.

(** ** The dispatch loop

    What one [select] of [processCmdLn] receives: a line on [resp], the
    closure of [resp] ([ok] false), or a value on [shutdown].  The lines
    are those [responseFetch] reads and forwards, and the closure is its
    deferred [close(resp)]; the values on [shutdown] are the caller's. *)
Inductive recv : Type :=
| RecvLine (cmdLn : gostring)
| RecvClosed
| RecvShutdown (sd : bool).

(** Where the goroutine is: in its [for] loop, returned, or unwinding from
    a panic of [cmdParseRun]. *)
Inductive phase : Type := Running | Terminated | Panicked.

(** The goroutine: its phase, how many times it has executed
    [close(shutdown)], and the machine. *)
Record loop : Type := mkloop {
  at_ : phase;
  closes : nat;
  mach : machine
}.

(** Leaving [processCmdLn] runs the deferred [close(shutdown)]. *)
Definition leave (p : phase) (l : loop) : loop :=
  mkloop p (S (closes l)) (mach l).

(** One iteration of the [for { select { ... } }] of [processCmdLn].  A
    panic of [cmdParseRun] leaves the goroutine with the machine as it was
    at the panic. *)
Definition processCmdLn_select (cmds : list cdef) (r : recv) (l : loop) : loop :=
  match r with
  | RecvLine cmdLn =>
      match cmdParseRun cmds cmdLn (mach l) with
      | Some (_, m) => mkloop Running (closes l) m
      | None =>
          leave Panicked
            (mkloop (at_ l) (closes l) (cmdParseRun_T cmds cmdLn (mach l)).1)
      end
  | RecvClosed => leave Terminated l
  | RecvShutdown sd => if sd then leave Terminated l else l
  end.

(** [func processCmdLn(cmds []cdef, shutdown chan bool, rCmdLn *bufio.Reader)]
    on what its successive [select]s receive; once it has left the loop the
    goroutine receives nothing more. *)
Fixpoint processCmdLn_from (cmds : list cdef) (rs : list recv) (l : loop) : loop :=
  match rs with
  | [] => l
  | r :: rs' =>
      match at_ l with
      | Running => processCmdLn_from cmds rs' (processCmdLn_select cmds r l)
      | _ => l
      end
  end.

Definition processCmdLn (cmds : list cdef) (rs : list recv) (m : machine) : loop :=
  processCmdLn_from cmds rs (mkloop Running 0 m).

(** ** Start *)

(** A goroutine launched by [go processCmdLn(cmds, shutdown, rCmdLn)]; a
    channel is named by its allocation number. *)
Inductive goroutine : Type :=
| go_processCmdLn (cmds : list cdef) (shutdown : nat) (rCmdLn : Reader).

(** The part of the Go runtime [start] acts on. *)
Record runtime : Type := mkruntime {
  rt_helps : helpers;
  rt_chans : nat;
  rt_goroutines : list goroutine
}.

(** [func start(cds []Cdef, rCmdLn *bufio.Reader) (shutdown chan bool, err error)];
    a nil channel is [None], and the whole result is [None] where
    [cs.cmmds] would dereference a nil [cs]. *)
Definition start (cds : list Cdef) (rCmdLn : Reader) (rt : runtime)
    : option ((option nat * error) * runtime) :=
  let '((cs, err), h) := validate cds (rt_helps rt) in
  match err with
  | Some _ => Some ((None, err), mkruntime h (rt_chans rt) (rt_goroutines rt))
  | None =>
      let shutdown := rt_chans rt in
      match cs with
      | None => None
      | Some cs =>
          Some ((Some shutdown, None),
                mkruntime h (S (rt_chans rt))
                  (rt_goroutines rt ++ [go_processCmdLn (cmmds cs) shutdown rCmdLn]))
      end
  end.

(** [func Start(cds []Cdef) (shutdown chan bool, err error)]. *)
Definition Start (cds : list Cdef) (rt : runtime) : option ((option nat * error) * runtime) :=
  start cds Stdin rt.


(** * Properties *)

(** ** Trimming *)

(** The first rune of a string, if any, is not trimmed by [f]. *)
Definition starts_ok (f : rune -> bool) (s : gostring) : Prop :=
  match s with
  | [] => True
  | r :: _ => f r = false
  end.

(** Nothing to trim at either end. *)
Definition trimmed (f : rune -> bool) (s : gostring) : Prop :=
  starts_ok f s /\ starts_ok f (rev s).

Lemma TrimLeftFunc_split (f : rune -> bool) (s : gostring) :
  exists p, s = p ++ strings.TrimLeftFunc s f /\ Forall (fun r => f r = true) p.
Proof.
  induction s as [|r s IH]; simpl.
  - exists []. split; [reflexivity | constructor].
  - destruct (f r) eqn:E.
    + destruct IH as (p & Hs & Hp). exists (r :: p). split.
      * simpl. f_equal. exact Hs.
      * constructor; assumption.
    + exists []. split; [reflexivity | constructor].
Qed.

Lemma TrimLeftFunc_starts_ok (f : rune -> bool) (s : gostring) :
  starts_ok f (strings.TrimLeftFunc s f).
Proof.
  induction s as [|r s IH]; simpl; [exact I|].
  destruct (f r) eqn:E; [exact IH | exact E].
Qed.

Lemma TrimLeftFunc_id (f : rune -> bool) (s : gostring) :
  starts_ok f s -> strings.TrimLeftFunc s f = s.
Proof.
  destruct s as [|r s]; simpl; [reflexivity|]. intros ->. reflexivity.
Qed.

Lemma TrimLeftFunc_all (f : rune -> bool) (s : gostring) :
  Forall (fun r => f r = true) s -> strings.TrimLeftFunc s f = [].
Proof.
  induction 1 as [|r s Hr _ IH]; simpl; [reflexivity|]. rewrite Hr. exact IH.
Qed.

Lemma starts_ok_app (f : rune -> bool) (s t : gostring) :
  s <> [] -> starts_ok f (s ++ t) <-> starts_ok f s.
Proof. destruct s; [congruence | reflexivity]. Qed.

Lemma TrimFunc_trimmed (f : rune -> bool) (s : gostring) :
  trimmed f (strings.TrimFunc s f).
Proof.
  unfold strings.TrimFunc, strings.TrimRightFunc, trimmed.
  pose proof (TrimLeftFunc_starts_ok f s) as Hu.
  set (u := strings.TrimLeftFunc s f) in *.
  pose proof (TrimLeftFunc_starts_ok f (rev u)) as Hv.
  destruct (TrimLeftFunc_split f (rev u)) as (p & Hsplit & _).
  set (v := strings.TrimLeftFunc (rev u) f) in *.
  split.
  - assert (Hu' : u = rev v ++ rev p).
    { rewrite <- (rev_involutive u), Hsplit, rev_app_distr. reflexivity. }
    destruct (rev v) as [|r w] eqn:Ev; [exact I|].
    rewrite Hu' in Hu. exact Hu.
  - rewrite rev_involutive. exact Hv.
Qed.

Lemma TrimFunc_id (f : rune -> bool) (s : gostring) :
  trimmed f s -> strings.TrimFunc s f = s.
Proof.
  intros [Hl Hr]. unfold strings.TrimFunc, strings.TrimRightFunc.
  rewrite (TrimLeftFunc_id f s Hl), (TrimLeftFunc_id f (rev s) Hr).
  apply rev_involutive.
Qed.

Lemma TrimFunc_idem (f : rune -> bool) (s : gostring) :
  strings.TrimFunc (strings.TrimFunc s f) f = strings.TrimFunc s f.
Proof. apply TrimFunc_id, TrimFunc_trimmed. Qed.

Lemma TrimFunc_all (f : rune -> bool) (s : gostring) :
  Forall (fun r => f r = true) s -> strings.TrimFunc s f = [].
Proof.
  intros H. unfold strings.TrimFunc, strings.TrimRightFunc.
  rewrite (TrimLeftFunc_all f s H). reflexivity.
Qed.

(** Trimming removes a trailing run of trimmed runes. *)
Lemma TrimRightFunc_app_all (f : rune -> bool) (s t : gostring) :
  Forall (fun r => f r = true) t ->
  strings.TrimRightFunc (s ++ t) f = strings.TrimRightFunc s f.
Proof.
  intros Ht. unfold strings.TrimRightFunc. f_equal. rewrite rev_app_distr.
  assert (Hrev : Forall (fun r => f r = true) (rev t)).
  { apply Forall_forall. intros x Hx. rewrite Forall_forall in Ht.
    apply Ht. apply list_elem_of_In. apply in_rev. apply list_elem_of_In. exact Hx. }
  clear Ht. induction Hrev as [|r t' Hr _ IH]; simpl; [reflexivity|].
  rewrite Hr. exact IH.
Qed.

Lemma TrimFunc_app_all (f : rune -> bool) (s t : gostring) :
  starts_ok f s -> s <> [] -> Forall (fun r => f r = true) t ->
  strings.TrimFunc (s ++ t) f = strings.TrimFunc s f.
Proof.
  intros Hs Hne Ht. unfold strings.TrimFunc.
  rewrite (TrimLeftFunc_id f (s ++ t)) by (apply starts_ok_app; assumption).
  rewrite (TrimLeftFunc_id f s Hs). apply TrimRightFunc_app_all. exact Ht.
Qed.

Lemma trimmed_app (f : rune -> bool) (s t : gostring) :
  trimmed f s -> trimmed f t -> s <> [] -> t <> [] -> forall mid, trimmed f (s ++ mid ++ t).
Proof.
  intros [Hs _] [_ Ht] Hsne Htne mid. split.
  - apply starts_ok_app; assumption.
  - rewrite !rev_app_distr, <- app_assoc. apply starts_ok_app; [|exact Ht].
    intros E. apply (f_equal (@rev rune)) in E. rewrite rev_involutive in E. auto.
Qed.


(** ** Searching *)

Lemma HasPrefix_app (sub b : gostring) : strings.HasPrefix (sub ++ b) sub = true.
Proof.
  induction sub as [|p sub IH]; simpl; [reflexivity|].
  rewrite Z.eqb_refl. exact IH.
Qed.

Lemma HasPrefix_true (s sub : gostring) :
  strings.HasPrefix s sub = true -> exists b, s = sub ++ b.
Proof.
  revert s. induction sub as [|p sub IH]; intros s H.
  - exists s. reflexivity.
  - destruct s as [|r s]; simpl in H; [discriminate|].
    apply andb_true_iff in H as [Hr Hs]. apply Z.eqb_eq in Hr. subst r.
    destruct (IH s Hs) as (b & ->). exists b. reflexivity.
Qed.

Lemma Index_nil (s : gostring) : strings.Index s [] = Some 0%nat.
Proof. destruct s; reflexivity. Qed.

Lemma Index_cons (r : rune) (s sub : gostring) :
  strings.Index (r :: s) sub =
  if strings.HasPrefix (r :: s) sub then Some 0%nat else S <$> strings.Index s sub.
Proof. reflexivity. Qed.

Lemma Index_HasPrefix (s sub : gostring) :
  strings.HasPrefix s sub = true -> strings.Index s sub = Some 0%nat.
Proof. intros H. destruct s; simpl; rewrite H; reflexivity. Qed.

Lemma Contains_intro (a sub b : gostring) :
  strings.Contains (a ++ sub ++ b) sub = true.
Proof.
  unfold strings.Contains.
  assert (H : exists n, strings.Index (a ++ sub ++ b) sub = Some n).
  { induction a as [|r a [n IH]].
    - simpl. exists 0%nat. apply Index_HasPrefix, HasPrefix_app.
    - change ((r :: a) ++ sub ++ b) with (r :: (a ++ sub ++ b)).
      rewrite Index_cons.
      destruct (strings.HasPrefix _ _); [eauto|]. rewrite IH. simpl. eauto. }
  destruct H as (n & ->). reflexivity.
Qed.

Lemma Contains_elim (s sub : gostring) :
  strings.Contains s sub = true -> exists a b, s = a ++ sub ++ b.
Proof.
  unfold strings.Contains. induction s as [|r s IH].
  - simpl. destruct (strings.HasPrefix [] sub) eqn:E; [|discriminate].
    intros _. apply HasPrefix_true in E as (b & E). exists [], b. exact E.
  - rewrite Index_cons. destruct (strings.HasPrefix (r :: s) sub) eqn:E.
    + intros _. apply HasPrefix_true in E as (b & E). exists [], b. exact E.
    + destruct (strings.Index s sub); [|discriminate]. intros _.
      destruct (IH eq_refl) as (a & b & ->). exists (r :: a), b. reflexivity.
Qed.

Lemma Contains_app (a s b sub : gostring) :
  strings.Contains s sub = true -> strings.Contains (a ++ s ++ b) sub = true.
Proof.
  intros H. apply Contains_elim in H as (a' & b' & ->).
  replace (a ++ (a' ++ sub ++ b') ++ b) with ((a ++ a') ++ sub ++ (b' ++ b))
    by (rewrite <- !app_assoc; reflexivity).
  apply Contains_intro.
Qed.

Lemma Contains_refl (s : gostring) : strings.Contains s s = true.
Proof.
  pose proof (Contains_intro [] s []) as H. simpl in H.
  rewrite app_nil_r in H. exact H.
Qed.

(** The first occurrence of one rune. *)
Lemma Index_rune_None (c : rune) (s : gostring) :
  c ∉ s -> strings.Index s [c] = None.
Proof.
  induction s as [|r s IH]; intros H; [reflexivity|].
  rewrite Index_cons. simpl.
  apply not_elem_of_cons in H as [Hne Hs].
  destruct (Z.eqb_spec r c) as [->|_]; [congruence|].
  simpl. rewrite (IH Hs). reflexivity.
Qed.

Lemma Index_rune_Some (c : rune) (a b : gostring) :
  c ∉ a -> strings.Index (a ++ c :: b) [c] = Some (length a).
Proof.
  induction a as [|r a IH]; intros H.
  - simpl. rewrite Z.eqb_refl. reflexivity.
  - apply not_elem_of_cons in H as [Hne Ha].
    change ((r :: a) ++ c :: b) with (r :: (a ++ c :: b)).
    rewrite Index_cons. simpl.
    destruct (Z.eqb_spec r c) as [->|_]; [congruence|].
    simpl. rewrite (IH Ha). reflexivity.
Qed.

Lemma rune_split (c : rune) (s : gostring) :
  c ∉ s \/ exists a b, s = a ++ c :: b /\ c ∉ a.
Proof.
  induction s as [|r s IH].
  - left. apply not_elem_of_nil.
  - destruct (Z.eq_dec r c) as [->|Hne].
    + right. exists [], s. split; [reflexivity | apply not_elem_of_nil].
    + destruct IH as [H|(a & b & -> & Ha)].
      * left. apply not_elem_of_cons. split; [congruence | exact H].
      * right. exists (r :: a), b. split; [reflexivity|].
        apply not_elem_of_cons. split; [congruence | exact Ha].
Qed.

Lemma take_after (c : rune) (a b : gostring) :
  take (length a + 1) (a ++ c :: b) = a ++ [c].
Proof.
  rewrite (cons_middle c a b), app_assoc.
  apply take_app_length'. rewrite length_app. reflexivity.
Qed.

Lemma drop_after (c : rune) (a b : gostring) :
  drop (length a + 1) (a ++ c :: b) = b.
Proof.
  rewrite (cons_middle c a b), app_assoc.
  apply drop_app_length'. rewrite length_app. reflexivity.
Qed.

(** ** [cmdNormalize] *)

Abbreviation TrimSpace := strings.TrimSpace.
Abbreviation ToLower := (strings.ToLower toLowerCase).
Abbreviation isSpace := (fun r : rune => unicode.IsSpace r = true).

Lemma TrimSpace_trimmed (s : gostring) : trimmed unicode.IsSpace (TrimSpace s).
Proof. apply TrimFunc_trimmed. Qed.

Lemma TrimSpace_id (s : gostring) : trimmed unicode.IsSpace s -> TrimSpace s = s.
Proof. apply TrimFunc_id. Qed.

Lemma TrimSpace_idem (s : gostring) : TrimSpace (TrimSpace s) = TrimSpace s.
Proof. apply TrimFunc_idem. Qed.

Lemma TrimSpace_all (s : gostring) : Forall isSpace s -> TrimSpace s = [].
Proof. apply TrimFunc_all. Qed.

Lemma TrimSpace_app_all (s t : gostring) :
  starts_ok unicode.IsSpace s -> s <> [] -> Forall isSpace t ->
  TrimSpace (s ++ t) = TrimSpace s.
Proof. apply TrimFunc_app_all. Qed.

(** With no space character in the trimmed line, the whole of it is the
    command name. *)
Lemma cmdNormalize_no_space (cmdln : gostring) :
  32 ∉ TrimSpace cmdln ->
  cmdNormalize cmdln = (ToLower (TrimSpace cmdln), []).
Proof.
  intros H. unfold cmdNormalize, strings.SplitAfterN. simpl.
  change (str " ") with [32]. rewrite (Index_rune_None 32 _ H). simpl.
  rewrite TrimSpace_idem. reflexivity.
Qed.

(** Otherwise the line is cut after its first space character. *)
Lemma cmdNormalize_space (cmdln a b : gostring) :
  TrimSpace cmdln = a ++ 32 :: b -> 32 ∉ a ->
  cmdNormalize cmdln = (ToLower (TrimSpace a), TrimSpace b).
Proof.
  intros E Ha. unfold cmdNormalize, strings.SplitAfterN. simpl.
  change (str " ") with [32]. rewrite E, (Index_rune_Some 32 a b Ha). simpl.
  rewrite take_after, drop_after. simpl. f_equal. f_equal.
  pose proof (TrimSpace_trimmed cmdln) as [Hl _]. rewrite E in Hl.
  destruct a as [|r a].
  - simpl in Hl. discriminate.
  - apply TrimSpace_app_all; [exact Hl | discriminate |].
    repeat constructor.
Qed.


(** C4 (as amended).  [cmdNormalize] trims the white space at both ends of
    the line and cuts the result after its first space character (U+0020),
    not at any other white space: the text before that space, trimmed and
    lower-cased, is the command name, and the text after it, trimmed, is the
    remainder; a trimmed line without a space character is, lower-cased, the
    command name, with an empty remainder.  So a line whose name and
    argument are separated by a tab only is one command name.  The line
    ["  Run   Away  \n"] gives the name ["run"] and the remainder ["Away"]. *)
Theorem cmdNormalize_first_space :
  (forall cmdln : gostring,
      32 ∉ TrimSpace cmdln ->
      cmdNormalize cmdln = (ToLower (TrimSpace cmdln), [])) /\
  (forall cmdln a b : gostring,
      TrimSpace cmdln = a ++ 32 :: b -> 32 ∉ a ->
      cmdNormalize cmdln = (ToLower (TrimSpace a), TrimSpace b)) /\
  cmdNormalize (str "  Run   Away  " ++ nl) = (str "run", str "Away") /\
  cmdNormalize (str "Run" ++ tab ++ str "Away" ++ nl)
  = (str "run" ++ tab ++ str "away", []).
Proof.
  split; [exact cmdNormalize_no_space|].
  split; [exact cmdNormalize_space|].
  split; reflexivity.
Qed.

(** ** Lower-casing *)

Lemma IsSpace_true (r : rune) :
  unicode.IsSpace r = true <->
  (9 <= r <= 13 \/ r = 32 \/ r = 133 \/ r = 160 \/ r = 5760 \/ 8192 <= r <= 8202
   \/ r = 8232 \/ r = 8233 \/ r = 8239 \/ r = 8287 \/ r = 12288).
Proof.
  unfold unicode.IsSpace, unicode.White_Space_excludingLatin, unicode.MaxLatin1.
  destruct ((0 <=? r) && (r <=? 255)) eqn:E.
  - apply andb_true_iff in E as [E1 E2].
    apply Z.leb_le in E1. apply Z.leb_le in E2.
    rewrite !orb_true_iff, !Z.eqb_eq. lia.
  - apply andb_false_iff in E.
    rewrite !orb_true_iff, !andb_true_iff, !Z.eqb_eq, !Z.leb_le.
    destruct E as [E|E]; [apply Z.leb_gt in E | apply Z.leb_gt in E]; lia.
Qed.

Lemma IsSpace_ascii_letter (r : rune) :
  65 <= r <= 122 -> unicode.IsSpace r = false.
Proof.
  intros H. destruct (unicode.IsSpace r) eqn:E; [|reflexivity].
  apply IsSpace_true in E. lia.
Qed.

(** What the development needs of Go's case table: lower-casing twice is
    lower-casing once, a rune is white space exactly when its lower case
    is, and white space has no other lower case. *)
Record caseTable_sound (table : rune -> rune) : Prop := {
  table_idem : forall r, unicode.MaxASCII < r ->
      unicode.ToLower table (table r) = table r;
  table_IsSpace : forall r, unicode.MaxASCII < r ->
      unicode.IsSpace (table r) = unicode.IsSpace r;
  table_space_fixed : forall r, unicode.MaxASCII < r ->
      unicode.IsSpace r = true -> table r = r
}.

Section LowerCase.

Hypothesis table_ok : caseTable_sound toLowerCase.

Abbreviation toLower := (unicode.ToLower toLowerCase).

Lemma toLower_idem (r : rune) : toLower (toLower r) = toLower r.
Proof.
  unfold unicode.ToLower at 2 3. unfold unicode.MaxASCII.
  destruct (Z.leb_spec r 127) as [Hr|Hr].
  - destruct ((65 <=? r) && (r <=? 90)) eqn:E; unfold unicode.ToLower, unicode.MaxASCII.
    + apply andb_true_iff in E as [E1 E2].
      apply Z.leb_le in E1. apply Z.leb_le in E2.
      destruct (Z.leb_spec (r + (97 - 65)) 127); [|lia].
      destruct (Z.leb_spec (r + (97 - 65)) 90); [lia|].
      rewrite andb_false_r. reflexivity.
    + destruct (Z.leb_spec r 127); [|lia]. rewrite E. reflexivity.
  - apply (table_idem _ table_ok). exact Hr.
Qed.

Lemma toLower_IsSpace (r : rune) : unicode.IsSpace (toLower r) = unicode.IsSpace r.
Proof.
  unfold unicode.ToLower, unicode.MaxASCII.
  destruct (Z.leb_spec r 127) as [Hr|Hr].
  - destruct ((65 <=? r) && (r <=? 90)) eqn:E; [|reflexivity].
    apply andb_true_iff in E as [E1 E2].
    apply Z.leb_le in E1. apply Z.leb_le in E2.
    rewrite !IsSpace_ascii_letter by lia. reflexivity.
  - apply (table_IsSpace _ table_ok). exact Hr.
Qed.

Lemma toLower_space (r : rune) : toLower r = 32 -> r = 32.
Proof.
  intros E.
  assert (Hs : unicode.IsSpace r = true).
  { rewrite <- toLower_IsSpace, E. reflexivity. }
  revert E. unfold unicode.ToLower, unicode.MaxASCII.
  destruct (Z.leb_spec r 127) as [Hr|Hr].
  - destruct ((65 <=? r) && (r <=? 90)) eqn:E; [|auto].
    apply andb_true_iff in E as [E1 E2]. apply Z.leb_le in E1. lia.
  - rewrite (table_space_fixed _ table_ok r Hr Hs). auto.
Qed.

Lemma ToLower_idem (s : gostring) : ToLower (ToLower s) = ToLower s.
Proof.
  unfold strings.ToLower. rewrite map_map. apply map_ext. intros r. apply toLower_idem.
Qed.

Lemma ToLower_no_space (s : gostring) : 32 ∉ s -> 32 ∉ ToLower s.
Proof.
  intros H Hin. apply H. unfold strings.ToLower in Hin.
  apply list_elem_of_In, in_map_iff in Hin as (r & E & Hr).
  symmetry in E. apply eq_sym, toLower_space in E. subst r.
  apply list_elem_of_In. exact Hr.
Qed.

Lemma ToLower_starts_ok (s : gostring) :
  starts_ok unicode.IsSpace s -> starts_ok unicode.IsSpace (ToLower s).
Proof.
  destruct s as [|r s]; simpl; [auto|]. rewrite toLower_IsSpace. auto.
Qed.

Lemma ToLower_trimmed (s : gostring) :
  trimmed unicode.IsSpace s -> trimmed unicode.IsSpace (ToLower s).
Proof.
  intros [Hl Hr]. split; [apply ToLower_starts_ok, Hl|].
  unfold strings.ToLower. rewrite <- map_rev. apply ToLower_starts_ok, Hr.
Qed.


(** ** [cmdNormalize] on its own results *)

Lemma TrimFunc_sub (f : rune -> bool) (s : gostring) :
  exists p q, s = p ++ strings.TrimFunc s f ++ q.
Proof.
  unfold strings.TrimFunc, strings.TrimRightFunc.
  destruct (TrimLeftFunc_split f s) as (p & Hp & _).
  set (u := strings.TrimLeftFunc s f) in *.
  destruct (TrimLeftFunc_split f (rev u)) as (q & Hq & _).
  exists p, (rev q). rewrite Hp at 1. f_equal.
  rewrite <- rev_app_distr, <- Hq, rev_involutive. reflexivity.
Qed.

Lemma TrimFunc_not_nil (f : rune -> bool) (s : gostring) :
  starts_ok f s -> s <> [] -> strings.TrimFunc s f <> [].
Proof.
  intros Hs Hne E. unfold strings.TrimFunc, strings.TrimRightFunc in E.
  rewrite (TrimLeftFunc_id f s Hs) in E.
  destruct (TrimLeftFunc_split f (rev s)) as (q & Hq & Hall).
  apply (f_equal (@rev rune)) in E. rewrite rev_involutive in E. simpl in E.
  rewrite E, app_nil_r in Hq.
  destruct s as [|r s]; [congruence|]. simpl in Hs.
  rewrite Forall_forall in Hall.
  assert (Hin : r ∈ q).
  { rewrite <- Hq. apply list_elem_of_In, in_rev. rewrite rev_involutive. left. reflexivity. }
  rewrite (Hall r Hin) in Hs. discriminate.
Qed.

Lemma TrimSpace_not_elem (x : rune) (s : gostring) : x ∉ s -> x ∉ TrimSpace s.
Proof.
  intros H Hin. apply H.
  destruct (TrimFunc_sub unicode.IsSpace s) as (p & q & E). rewrite E.
  apply elem_of_app. right. apply elem_of_app. left. exact Hin.
Qed.

(** A name and a remainder as [cmdNormalize] returns them are returned
    again from the line that joins them with a space. *)
Lemma cmdNormalize_join (name rem : gostring) :
  trimmed unicode.IsSpace name -> 32 ∉ name -> ToLower name = name ->
  trimmed unicode.IsSpace rem -> (name = [] -> rem = []) ->
  cmdNormalize (name ++ str " " ++ rem) = (name, rem).
Proof.
  intros Hn Hsp Hlow Hr Hempty. change (str " ") with [32].
  destruct rem as [|r rem].
  - destruct name as [|n name]; [reflexivity|].
    assert (E : TrimSpace ((n :: name) ++ [32] ++ []) = n :: name).
    { rewrite app_nil_r, TrimSpace_app_all.
      - apply TrimSpace_id, Hn.
      - apply Hn.
      - discriminate.
      - repeat constructor. }
    rewrite cmdNormalize_no_space; rewrite E; [|exact Hsp].
    rewrite Hlow. reflexivity.
  - destruct name as [|n name]; [specialize (Hempty eq_refl); discriminate|].
    assert (E : TrimSpace ((n :: name) ++ [32] ++ r :: rem)
                = (n :: name) ++ 32 :: r :: rem).
    { apply TrimSpace_id.
      assert (Hnn : n :: name <> []) by discriminate.
      assert (Hrn : r :: rem <> []) by discriminate.
      exact (trimmed_app _ _ _ Hn Hr Hnn Hrn [32]). }
    rewrite (cmdNormalize_space _ _ _ E Hsp).
    rewrite (TrimSpace_id _ Hn), (TrimSpace_id _ Hr), Hlow. reflexivity.
Qed.

(** C8.  [cmdNormalize] is idempotent: the name and the remainder of a
    line, joined by one space, normalize to themselves. *)
Theorem cmdNormalize_idempotent (cmdln name rem : gostring) :
  cmdNormalize cmdln = (name, rem) ->
  cmdNormalize (name ++ str " " ++ rem) = (name, rem).
Proof.
  intros E.
  pose proof (TrimSpace_trimmed cmdln) as Ht.
  destruct (rune_split 32 (TrimSpace cmdln)) as [Hno|(a & b & Hab & Ha)].
  - rewrite (cmdNormalize_no_space _ Hno) in E. injection E as <- <-.
    apply cmdNormalize_join.
    + apply ToLower_trimmed, Ht.
    + apply ToLower_no_space, Hno.
    + apply ToLower_idem.
    + split; exact I.
    + reflexivity.
  - rewrite (cmdNormalize_space _ _ _ Hab Ha) in E. injection E as <- <-.
    assert (Hane : TrimSpace a <> []).
    { destruct Ht as [Hl _]. rewrite Hab in Hl.
      destruct a as [|r a]; [simpl in Hl; discriminate|].
      apply TrimFunc_not_nil; [exact Hl | discriminate]. }
    apply cmdNormalize_join.
    + apply ToLower_trimmed, TrimSpace_trimmed.
    + apply ToLower_no_space, TrimSpace_not_elem, Ha.
    + apply ToLower_idem.
    + apply TrimSpace_trimmed.
    + intros E. exfalso. apply Hane.
      unfold strings.ToLower in E. apply map_eq_nil in E. exact E.
Qed.

End LowerCase.


(** ** Validation *)

(** The message of an error contains [msg]. *)
Definition mentions (e : error) (msg : gostring) : bool :=
  match e with
  | Some text => strings.Contains text msg
  | None => false
  end.

(** [cdefVerify] accepts the definition. *)
Definition wellFormed (c : Cdef) : bool :=
  negb (string_eq (NmLong c) (str ""))
  && (len (NmShort c) <=? len (NmLong c))%nat
  && bool_decide (is_Some (Parse c))
  && bool_decide (is_Some (Run c))
  && negb (string_eq (Help c) (str "")).

(** The entry [validate] leaves at the index of a definition: the
    definition with its lower-cased names, or the zero value that
    [make] put there. *)
Definition lowered (c : Cdef) : cdef :=
  mkcdef c (ToLower (NmShort c)) (ToLower (NmLong c)).
Definition entry_of (c : Cdef) : cdef :=
  if wellFormed c then lowered c else cdef_zero.

(** The [helpRunner] objects of the accepted definitions. *)
Definition help_addresses (cds : list Cdef) : list nat :=
  flat_map (fun c => if wellFormed c then
                       match Run c with
                       | Some (helpRunner_at hlp) => [hlp]
                       | _ => []
                       end
                     else []) cds.

Lemma mentions_l (errs err : error) (msg : gostring) :
  mentions errs msg = true -> mentions (errorsConcat errs err) msg = true.
Proof.
  destruct errs as [text|]; [|discriminate]. simpl. intros H.
  apply (Contains_app [] text _ msg H).
Qed.

Lemma mentions_r (errs err : error) (msg : gostring) :
  mentions err msg = true -> mentions (errorsConcat errs err) msg = true.
Proof.
  destruct err as [text|]; [|discriminate]. simpl. intros H.
  apply (Contains_app _ text nl msg H).
Qed.

Lemma mentions_new (errs : error) (msg : gostring) :
  mentions (errorsConcat errs (Some msg)) msg = true.
Proof. apply mentions_r. simpl. apply Contains_refl. Qed.

Lemma string_eq_nil (s : gostring) : string_eq s (str "") = true <-> s = [].
Proof. unfold string_eq. rewrite bool_decide_eq_true. reflexivity. Qed.

(** The name by which [cdefVerify] refers to a definition. *)
Definition cdefRef_of (c : Cdef) (altNm : gostring) : gostring :=
  if string_eq (NmLong c) (str "") then altNm else NmLong c.

Ltac find_msg := solve [ apply mentions_new | apply mentions_l; find_msg ].

Lemma cdefVerify_mentions (c : Cdef) (altNm : gostring) :
  (NmLong c = [] -> mentions (cdefVerify c altNm) (msgLong altNm) = true) /\
  (NmLong c <> [] -> (len (NmLong c) < len (NmShort c))%nat ->
   mentions (cdefVerify c altNm) (msgShort (NmLong c)) = true) /\
  (Parse c = None ->
   mentions (cdefVerify c altNm) (msgParse (cdefRef_of c altNm)) = true) /\
  (Run c = None ->
   mentions (cdefVerify c altNm) (msgRun (cdefRef_of c altNm)) = true) /\
  (Help c = [] ->
   mentions (cdefVerify c altNm) (msgHelp (cdefRef_of c altNm)) = true).
Proof.
  unfold cdefVerify, cdefRef_of.
  destruct (string_eq (NmLong c) (str "")) eqn:EL.
  - apply string_eq_nil in EL.
    repeat split; intros; try congruence;
      repeat match goal with H : _ = _ |- _ => rewrite H end;
      destruct (Parse c), (Run c), (string_eq (Help c) (str "")) eqn:EH;
      try discriminate; try find_msg;
      exfalso; rewrite string_eq_nil in EH;
      match goal with H : Help c = [] |- _ => rewrite H in EH end; discriminate.
  - destruct (len (NmLong c) <? len (NmShort c))%nat eqn:ES.
    + repeat split; intros;
        try (apply string_eq_nil in H; congruence);
        destruct (Parse c), (Run c), (string_eq (Help c) (str "")) eqn:EH;
        try discriminate; try find_msg;
        try (exfalso; rewrite <- string_eq_nil in *; congruence).
    + apply Nat.ltb_ge in ES.
      repeat split; intros; try lia;
        try (apply string_eq_nil in H; congruence);
        destruct (Parse c), (Run c), (string_eq (Help c) (str "")) eqn:EH;
        try discriminate; try find_msg;
        try (exfalso; rewrite <- string_eq_nil in *; congruence).
Qed.


Lemma cdefVerify_wellFormed (c : Cdef) (altNm : gostring) :
  cdefVerify c altNm = None <-> wellFormed c = true.
Proof.
  unfold cdefVerify, wellFormed.
  destruct (string_eq (NmLong c) (str "")); simpl.
  - destruct (Parse c), (Run c), (string_eq (Help c) (str "")); simpl;
      split; discriminate.
  - rewrite Nat.leb_antisym.
    destruct (len (NmLong c) <? len (NmShort c))%nat; simpl;
      destruct (Parse c), (Run c), (string_eq (Help c) (str "")); simpl;
      split; try discriminate; try reflexivity;
      intros H; exfalso; revert H;
      rewrite ?andb_false_r; simpl;
      try discriminate;
      rewrite ?andb_true_iff, ?bool_decide_eq_true; intros H;
      repeat match goal with H : _ /\ _ |- _ => destruct H end;
      repeat match goal with H : is_Some None |- _ => destruct H; discriminate end.
Qed.

Lemma cdefVerify_Some (c : Cdef) (altNm : gostring) :
  wellFormed c = false -> exists err, cdefVerify c altNm = Some err.
Proof.
  intros H. destruct (cdefVerify c altNm) as [err|] eqn:E; [eauto|].
  apply cdefVerify_wellFormed in E. congruence.
Qed.

Lemma alter_middle (f : cdef -> cdef) (done rest : list cdef) (x : cdef) :
  alter f (length done) (done ++ x :: rest) = done ++ f x :: rest.
Proof. induction done as [|d done IH]; simpl; [reflexivity|]. f_equal. exact IH. Qed.

(** The combined error of the loop: the errors of the rejected
    definitions, concatenated in order. *)
Fixpoint errors_from (i : nat) (cds : list Cdef) (errs : error) : error :=
  match cds with
  | [] => errs
  | c :: cds' =>
      match cdefVerify c (strconv.Itoa i) with
      | Some err => errors_from (S i) cds' (errorsConcat errs (Some err))
      | None => errors_from (S i) cds' errs
      end
  end.

(** What the loop of [validate] computes. *)
Lemma validate_range_eq (cds : list Cdef) :
  forall (done : list cdef) (errs : error) (patched : list nat),
    validate_range (length done) cds
      (done ++ replicate (length cds) cdef_zero) errs patched
    = (done ++ map entry_of cds,
       errors_from (length done) cds errs,
       rev (help_addresses cds) ++ patched).
Proof.
  induction cds as [|c cds IH]; intros done errs patched.
  - reflexivity.
  - cbn [validate_range errors_from length replicate map help_addresses flat_map].
    unfold entry_of at 1.
    destruct (cdefVerify c (strconv.Itoa (length done))) as [err|] eqn:E.
    + assert (Hwf : wellFormed c = false).
      { destruct (wellFormed c) eqn:Hw; [|reflexivity].
        apply (cdefVerify_wellFormed c (strconv.Itoa (length done))) in Hw. congruence. }
      rewrite Hwf.
      specialize (IH (done ++ [cdef_zero]) (errorsConcat errs (Some err)) patched).
      rewrite length_app, Nat.add_1_r, <- !app_assoc in IH. simpl in IH.
      exact IH.
    + apply cdefVerify_wellFormed in E. rewrite E.
      rewrite !alter_middle. rewrite list_lookup_middle by reflexivity.
      cbn [fmap option_fmap option_map set_Cdef set_nmShortL set_nmLongL
           cdef_Cdef nmShortL nmLongL cdef_zero].
      specialize (IH (done ++ [lowered c]) errs).
      rewrite length_app, Nat.add_1_r, <- !app_assoc in IH. simpl in IH.
      unfold lowered in IH at 1.
      destruct (Run c) as [[hlp|run]|]; rewrite IH; unfold lowered;
        try reflexivity.
      simpl. rewrite <- app_assoc. reflexivity.
Qed.

(** What [validate] computes. *)
Lemma validate_eq (cds : list Cdef) (h : helpers) :
  validate cds h =
  match cds with
  | [] => ((None, Some (str "commands not defined")), h)
  | _ :: _ =>
      let cs := mkcmds (map entry_of cds) in
      ((Some cs, errors_from 0 cds None),
       foldr (fun hlp h => <[hlp := cs]> h) h (rev (help_addresses cds)))
  end.
Proof.
  destruct cds as [|c cds]; [reflexivity|].
  unfold validate.
  change (length (c :: cds) <? 1)%nat with false. cbv iota.
  pose proof (validate_range_eq (c :: cds) [] None []) as H.
  change (length []) with 0%nat in H.
  rewrite app_nil_l, app_nil_l, app_nil_r in H. rewrite H. reflexivity.
Qed.


Lemma errors_from_mono (msg : gostring) (cds : list Cdef) :
  forall (i : nat) (errs : error),
    mentions errs msg = true -> mentions (errors_from i cds errs) msg = true.
Proof.
  induction cds as [|c cds IH]; intros i errs H; simpl; [exact H|].
  destruct (cdefVerify c (strconv.Itoa i)); apply IH; [apply mentions_l|]; exact H.
Qed.

Lemma errors_from_mentions (msg : gostring) (cds : list Cdef) :
  forall (i j : nat) (errs : error) (c : Cdef),
    cds !! j = Some c ->
    mentions (cdefVerify c (strconv.Itoa (i + j))) msg = true ->
    mentions (errors_from i cds errs) msg = true.
Proof.
  induction cds as [|c0 cds IH]; intros i j errs c Hj Hm; [discriminate|].
  destruct j as [|j]; simpl in Hj.
  - injection Hj as ->. rewrite Nat.add_0_r in Hm. simpl.
    destruct (cdefVerify c (strconv.Itoa i)) as [err|]; [|discriminate].
    apply errors_from_mono, mentions_r. exact Hm.
  - simpl. replace (i + S j)%nat with (S i + j)%nat in Hm by lia.
    destruct (cdefVerify c0 (strconv.Itoa i)); eapply IH; eauto.
Qed.

Lemma errors_from_None (cds : list Cdef) :
  forall (i : nat) (errs : error),
    errors_from i cds errs = None <->
    errs = None /\ Forall (fun c => wellFormed c = true) cds.
Proof.
  induction cds as [|c cds IH]; intros i errs; simpl.
  - split; [intros ->; split; [reflexivity | constructor] | intros [-> _]; reflexivity].
  - destruct (cdefVerify c (strconv.Itoa i)) as [err|] eqn:E; rewrite IH.
    + split; [intros [H _]; discriminate|].
      intros [_ H]. inversion H as [|? ? Hc _]; subst.
      apply (cdefVerify_wellFormed c (strconv.Itoa i)) in Hc. congruence.
    + apply cdefVerify_wellFormed in E.
      split; intros [He H]; (split; [exact He|]).
      * constructor; assumption.
      * inversion H; assumption.
Qed.

(** The violations of a definition as they are reported, in the order of
    the tests: the missing long name, under the alternative name, or else,
    the long name being there, the short name that is longer; then the nil
    parser, the nil runner and the empty help text, each tested whatever
    the others gave. *)
Definition violations (c : Cdef) (altNm : gostring) : list gostring :=
  (if string_eq (NmLong c) (str "") then [msgLong altNm]
   else if (len (NmLong c) <? len (NmShort c))%nat then [msgShort (NmLong c)]
   else [])
  ++ match Parse c with
     | None => [msgParse (cdefRef_of c altNm)]
     | Some _ => []
     end
  ++ match Run c with
     | None => [msgRun (cdefRef_of c altNm)]
     | Some _ => []
     end
  ++ (if string_eq (Help c) (str "") then [msgHelp (cdefRef_of c altNm)] else []).

(** The error that holds the texts [ms]: nil when there are none, and
    otherwise the text that [%s] gives for the nil error followed by each
    text and a newline. *)
Definition error_text (ms : list gostring) : error :=
  match ms with
  | [] => None
  | _ :: _ => Some (str "%!s(<nil>)" ++ concat (map (fun m => m ++ nl) ms))
  end.

Lemma errorsConcat_text (ms : list gostring) (m : gostring) :
  errorsConcat (error_text ms) (Some m) = error_text (ms ++ [m]).
Proof.
  destruct ms as [|m0 ms]; unfold errorsConcat, error_text.
  - cbn [fmt.verb_s app map concat]. rewrite app_nil_r. reflexivity.
  - cbn [fmt.verb_s app map concat]. rewrite map_app, concat_app. cbn [map concat].
    rewrite app_nil_r, <- !app_assoc. reflexivity.
Qed.

Lemma cdefVerify_text (c : Cdef) (altNm : gostring) :
  cdefVerify c altNm = error_text (violations c altNm).
Proof.
  unfold cdefVerify, violations, cdefRef_of.
  destruct (string_eq (NmLong c) (str ""));
    [|destruct (len (NmLong c) <? len (NmShort c))%nat];
    destruct (Parse c), (Run c), (string_eq (Help c) (str ""));
    rewrite ?(errorsConcat_text []), ?errorsConcat_text; reflexivity.
Qed.

Lemma violations_elem (c : Cdef) (altNm msg : gostring) :
  msg ∈ violations c altNm <->
  (NmLong c = [] /\ msg = msgLong altNm) \/
  (NmLong c <> [] /\ (len (NmLong c) < len (NmShort c))%nat /\
   msg = msgShort (NmLong c)) \/
  (Parse c = None /\ msg = msgParse (cdefRef_of c altNm)) \/
  (Run c = None /\ msg = msgRun (cdefRef_of c altNm)) \/
  (Help c = [] /\ msg = msgHelp (cdefRef_of c altNm)).
Proof.
  unfold violations. rewrite !elem_of_app.
  assert (HL : msg ∈ (if string_eq (NmLong c) (str "") then [msgLong altNm]
                      else if (len (NmLong c) <? len (NmShort c))%nat
                           then [msgShort (NmLong c)] else [])
               <-> (NmLong c = [] /\ msg = msgLong altNm) \/
                   (NmLong c <> [] /\ (len (NmLong c) < len (NmShort c))%nat /\
                    msg = msgShort (NmLong c))).
  { destruct (string_eq (NmLong c) (str "")) eqn:EL.
    - apply string_eq_nil in EL. rewrite list_elem_of_singleton. intuition congruence.
    - assert (NL : NmLong c <> []).
      { intros E. apply string_eq_nil in E. congruence. }
      destruct (Nat.ltb_spec (len (NmLong c)) (len (NmShort c))).
      + rewrite list_elem_of_singleton. intuition congruence.
      + rewrite elem_of_nil. intuition (try congruence; lia). }
  assert (HP : msg ∈ match Parse c with
                     | None => [msgParse (cdefRef_of c altNm)]
                     | Some _ => []
                     end
               <-> Parse c = None /\ msg = msgParse (cdefRef_of c altNm)).
  { destruct (Parse c); [rewrite elem_of_nil | rewrite list_elem_of_singleton];
      intuition congruence. }
  assert (HR : msg ∈ match Run c with
                     | None => [msgRun (cdefRef_of c altNm)]
                     | Some _ => []
                     end
               <-> Run c = None /\ msg = msgRun (cdefRef_of c altNm)).
  { destruct (Run c); [rewrite elem_of_nil | rewrite list_elem_of_singleton];
      intuition congruence. }
  assert (HH : msg ∈ (if string_eq (Help c) (str "")
                      then [msgHelp (cdefRef_of c altNm)] else [])
               <-> Help c = [] /\ msg = msgHelp (cdefRef_of c altNm)).
  { destruct (string_eq (Help c) (str "")) eqn:EH.
    - apply string_eq_nil in EH. rewrite list_elem_of_singleton. intuition congruence.
    - assert (NH : Help c <> []).
      { intros E. apply string_eq_nil in E. congruence. }
      rewrite elem_of_nil. intuition congruence. }
  rewrite HL, HP, HR, HH. tauto.
Qed.

(** The message of a short name that is too long is none of the other
    four, whatever the references. *)
Lemma msgShort_other (ref ref' : gostring) :
  msgShort ref <> msgLong ref' /\ msgShort ref <> msgParse ref' /\
  msgShort ref <> msgRun ref' /\ msgShort ref <> msgHelp ref'.
Proof.
  repeat split; intros E; vm_compute in E; discriminate E.
Qed.

Lemma errors_from_text (cds : list Cdef) :
  forall (i : nat) (ms : list gostring),
    errors_from i cds (error_text ms)
    = error_text
        (ms ++ concat (imap (fun j c => option_list (cdefVerify c (strconv.Itoa (i + j))))
                         cds)).
Proof.
  induction cds as [|c cds IH]; intros i ms.
  - cbn. rewrite app_nil_r. reflexivity.
  - cbn [errors_from]. rewrite imap_cons, Nat.add_0_r. cbn [concat].
    assert (E : imap ((fun j c => option_list (cdefVerify c (strconv.Itoa (i + j)))) ∘ S) cds
                = imap (fun j c => option_list (cdefVerify c (strconv.Itoa (S i + j)))) cds).
    { apply imap_ext. intros j x _. cbn. replace (i + S j)%nat with (S (i + j))%nat by lia.
      reflexivity. }
    rewrite E.
    destruct (cdefVerify c (strconv.Itoa i)) as [err|].
    + rewrite errorsConcat_text, IH. cbn [option_list option_rect].
      rewrite <- app_assoc. reflexivity.
    + rewrite IH. reflexivity.
Qed.

(** C2 (as amended).  [cdefVerify] reports of a definition, in one error
    and in this order: its missing long name, under the alternative name,
    which then names the definition in its other messages too, or else,
    only when the long name is there, its short name longer than the long
    one; then its nil parser, its nil runner and its empty help text, each
    whatever else is wrong.  [validate] checks every definition of a
    non-empty sequence, stopping at none, and returns the one error that
    holds, in the order of the sequence, the error of every definition
    rejected, each under its index; that error is nil exactly when every
    definition is accepted. *)
Theorem validate_reports_all :
  (forall (c : Cdef) (altNm : gostring),
      cdefVerify c altNm = error_text (violations c altNm)) /\
  (forall (c : Cdef) (altNm msg : gostring),
      msg ∈ violations c altNm <->
      (NmLong c = [] /\ msg = msgLong altNm) \/
      (NmLong c <> [] /\ (len (NmLong c) < len (NmShort c))%nat /\
       msg = msgShort (NmLong c)) \/
      (Parse c = None /\ msg = msgParse (cdefRef_of c altNm)) \/
      (Run c = None /\ msg = msgRun (cdefRef_of c altNm)) \/
      (Help c = [] /\ msg = msgHelp (cdefRef_of c altNm))) /\
  (forall (c : Cdef) (altNm ref : gostring),
      NmLong c = [] -> msgShort ref ∉ violations c altNm) /\
  (forall (cds : list Cdef) (h : helpers),
      cds <> [] ->
      (validate cds h).1.2
      = error_text
          (concat (imap (fun i c => option_list (cdefVerify c (strconv.Itoa i))) cds)) /\
      ((validate cds h).1.2 = None <-> Forall (fun c => wellFormed c = true) cds)).
Proof.
  split; [exact cdefVerify_text|]. split; [exact violations_elem|]. split.
  - intros c altNm ref HL Hin. apply violations_elem in Hin.
    destruct (msgShort_other ref altNm) as (N1 & _).
    destruct (msgShort_other ref (cdefRef_of c altNm)) as (_ & N2 & N3 & N4).
    destruct Hin as [[_ E]|[[NL _]|[[_ E]|[[_ E]|[_ E]]]]]; congruence.
  - intros cds h Hne. rewrite validate_eq.
    destruct cds as [|c0 cds]; [congruence|]. cbv beta iota zeta. cbn [fst snd].
    split.
    + change (@None gostring) with (error_text []).
      rewrite (errors_from_text (c0 :: cds) 0 []). reflexivity.
    + split.
      * intros H. apply errors_from_None in H. apply H.
      * intros H. apply errors_from_None. split; [reflexivity | exact H].
Qed.

(** On a non-empty sequence [validate] returns a table, whatever the
    error: at the index of each accepted definition its entry, at the
    index of each rejected one the zero entry. *)
Lemma validate_table (cds : list Cdef) (h : helpers) :
  cds <> [] -> (validate cds h).1.1 = Some (mkcmds (map entry_of cds)).
Proof. intros H. rewrite validate_eq. destruct cds; [congruence | reflexivity]. Qed.

Lemma entry_of_wellFormed (cds : list Cdef) :
  Forall (fun c => wellFormed c = true) cds -> map entry_of cds = map lowered cds.
Proof.
  induction 1 as [|c cds Hc _ IH]; simpl; [reflexivity|].
  unfold entry_of at 1. rewrite Hc, IH. reflexivity.
Qed.

(** ** Start *)

Lemma start_empty (rCmdLn : Reader) (rt : runtime) :
  start [] rCmdLn rt
  = Some ((None, Some (str "commands not defined")),
          mkruntime (rt_helps rt) (rt_chans rt) (rt_goroutines rt)).
Proof. reflexivity. Qed.

(** A rejected table starts nothing. *)
Lemma start_rejected (cds : list Cdef) (rCmdLn : Reader) (rt : runtime) :
  cds <> [] -> ~ Forall (fun c => wellFormed c = true) cds ->
  exists errs h,
    start cds rCmdLn rt
    = Some ((None, Some errs), mkruntime h (rt_chans rt) (rt_goroutines rt)).
Proof.
  intros Hne Hbad. unfold start. rewrite validate_eq.
  destruct cds as [|c cds]; [congruence|]. cbv zeta.
  destruct (errors_from 0 (c :: cds) None) as [errs|] eqn:E.
  - eauto.
  - apply errors_from_None in E as [_ E]. contradiction.
Qed.

Lemma start_accepted (cds : list Cdef) (rCmdLn : Reader) (rt : runtime) :
  cds <> [] -> Forall (fun c => wellFormed c = true) cds ->
  exists h,
    start cds rCmdLn rt
    = Some ((Some (rt_chans rt), None),
            mkruntime h (S (rt_chans rt))
              (rt_goroutines rt ++ [go_processCmdLn (map lowered cds) (rt_chans rt) rCmdLn])).
Proof.
  intros Hne Hok. unfold start. rewrite validate_eq.
  destruct cds as [|c cds]; [congruence|]. cbv zeta.
  assert (E : errors_from 0 (c :: cds) None = None).
  { apply errors_from_None. split; [reflexivity | exact Hok]. }
  rewrite E. cbn [cmmds]. rewrite (entry_of_wellFormed _ Hok). eauto.
Qed.

(** C6.  On the empty sequence [Start] returns a nil channel and the error
    ["commands not defined"], and leaves the runtime as it was: no channel
    made, no goroutine launched.  On a non-empty sequence of accepted
    definitions it returns a channel, the one it has just made, and a nil
    error, having launched the dispatch loop on that channel. *)
Theorem Start_result :
  (forall rt : runtime,
      Start [] rt
      = Some ((None, Some (str "commands not defined")),
              mkruntime (rt_helps rt) (rt_chans rt) (rt_goroutines rt))
      /\ strings.Contains (str "commands not defined") (str "not defined") = true) /\
  (forall (cds : list Cdef) (rt : runtime),
      cds <> [] -> Forall (fun c => wellFormed c = true) cds ->
      exists h,
        Start cds rt
        = Some ((Some (rt_chans rt), None),
                mkruntime h (S (rt_chans rt))
                  (rt_goroutines rt
                   ++ [go_processCmdLn (map lowered cds) (rt_chans rt) Stdin]))).
Proof.
  split.
  - intros rt. split; [apply start_empty | reflexivity].
  - intros cds rt Hne Hok. apply start_accepted; assumption.
Qed.


(** ** Selection *)

(** The entry answers to the name. *)
Definition answers (cmdNm : gostring) (c : cdef) : Prop :=
  cmdNm = nmShortL c \/ cmdNm = nmLongL c.

Lemma answers_test (cmdNm : gostring) (c : cdef) :
  string_eq cmdNm (nmShortL c) || string_eq cmdNm (nmLongL c) = true
  <-> answers cmdNm c.
Proof.
  unfold answers, string_eq. rewrite orb_true_iff, !bool_decide_eq_true. reflexivity.
Qed.

Lemma cmdSelect_scan (cmds : list cdef) (cmdNm : gostring) :
  (exists pre c post,
      cmds = pre ++ c :: post /\ Forall (fun c' => ~ answers cmdNm c') pre /\
      answers cmdNm c /\ cmdSelect cmds cmdNm = (c, None))
  \/ (Forall (fun c' => ~ answers cmdNm c') cmds /\
      cmdSelect cmds cmdNm = (cdef_zero, Some (unknownCommand cmdNm))).
Proof.
  induction cmds as [|c cmds IH]; simpl.
  - right. split; [constructor | reflexivity].
  - destruct (string_eq cmdNm (nmShortL c) || string_eq cmdNm (nmLongL c)) eqn:E.
    + left. exists [], c, cmds. apply answers_test in E.
      repeat split; [constructor | exact E].
    + assert (Hc : ~ answers cmdNm c).
      { intros H. apply answers_test in H. congruence. }
      destruct IH as [(pre & c' & post & -> & Hpre & Hc' & Hsel)|[Hall Hsel]].
      * left. exists (c :: pre), c', post.
        repeat split; [constructor; assumption | exact Hc' | exact Hsel].
      * right. split; [constructor; assumption | exact Hsel].
Qed.

Lemma cmdSelect_elem (cmds : list cdef) (cmdNm : gostring) (c : cdef) :
  cmdSelect cmds cmdNm = (c, None) -> c ∈ cmds.
Proof.
  intros H. destruct (cmdSelect_scan cmds cmdNm)
    as [(pre & c' & post & -> & _ & _ & Hsel)|[_ Hsel]]; rewrite Hsel in H.
  - injection H as <-. apply elem_of_app. right. left.
  - discriminate.
Qed.

Lemma cmdSelect_answer (cmds : list cdef) (cmdNm : gostring) (c : cdef) :
  c ∈ cmds -> answers cmdNm c -> exists c', cmdSelect cmds cmdNm = (c', None).
Proof.
  intros Hin Hc. destruct (cmdSelect_scan cmds cmdNm)
    as [(pre & c' & post & -> & _ & _ & Hsel)|[Hall _]]; [eauto|].
  rewrite Forall_forall in Hall. destruct (Hall c Hin Hc).
Qed.

(** An accepted sequence of definitions and the table made of it. *)
Lemma validate_accepted (cds : list Cdef) (h h' : helpers) (cs : cmds) :
  validate cds h = ((Some cs, None), h') ->
  cds <> [] /\ Forall (fun c => wellFormed c = true) cds /\
  cs = mkcmds (map lowered cds) /\
  h' = foldr (fun hlp h => <[hlp := cs]> h) h (rev (help_addresses cds)).
Proof.
  rewrite validate_eq. destruct cds as [|c cds]; [discriminate|].
  cbv beta iota zeta. remember (c :: cds) as l eqn:El.
  intros E. injection E as E1 E2 E3.
  apply errors_from_None in E2 as [_ Hok].
  rewrite (entry_of_wellFormed _ Hok) in E1, E3.
  subst cs h'. repeat split; [congruence | exact Hok].
Qed.

(** C5.  [cmdSelect] scans the table from its first entry and returns the
    first one whose lower-cased short name or lower-cased long name is the
    command name, with a nil error; when no entry answers it returns an
    error whose message carries the name.  In a table made by [validate]
    those two names are the lower case of the definition's names, so a
    name in any case, once lower-cased, selects an entry. *)
Theorem cmdSelect_first_match :
  (forall (cmds : list cdef) (cmdNm : gostring),
      (exists pre c post,
          cmds = pre ++ c :: post /\ Forall (fun c' => ~ answers cmdNm c') pre /\
          answers cmdNm c /\ cmdSelect cmds cmdNm = (c, None))
      \/ (Forall (fun c' => ~ answers cmdNm c') cmds /\
          cmdSelect cmds cmdNm = (cdef_zero, Some (unknownCommand cmdNm)) /\
          strings.Contains (unknownCommand cmdNm) cmdNm = true)) /\
  (forall (cds : list Cdef) (h h' : helpers) (cs : cmds),
      validate cds h = ((Some cs, None), h') ->
      cmmds cs = map lowered cds /\
      forall (c : Cdef) (name : gostring),
        c ∈ cds ->
        ToLower name = ToLower (NmShort c) \/ ToLower name = ToLower (NmLong c) ->
        exists c', cmdSelect (cmmds cs) (ToLower name) = (c', None)).
Proof.
  split.
  - intros cmds cmdNm.
    destruct (cmdSelect_scan cmds cmdNm) as [H|[Hall Hsel]]; [left; exact H|].
    right. repeat split; [exact Hall | exact Hsel |].
    unfold unknownCommand. apply Contains_intro.
  - intros cds h h' cs Hv.
    apply validate_accepted in Hv as (_ & _ & -> & _). split; [reflexivity|].
    intros c name Hin Hname. cbn [cmmds].
    apply (cmdSelect_answer _ _ (lowered c)).
    + apply list_elem_of_fmap. exists c. split; [reflexivity | exact Hin].
    + exact Hname.
Qed.


(** ** Dispatch of one line *)

(** The calls [cmdParseRun] makes on the entry do not panic: its parser and
    its runner are not nil, and a [helpRunner] has been patched. *)
Definition callable (h : helpers) (c : cdef) : Prop :=
  is_Some (Parse (cdef_Cdef c)) /\
  match Run (cdef_Cdef c) with
  | None => False
  | Some (helpRunner_at hr) => is_Some (h !! hr)
  | Some (Runner_of _) => True
  end.

(** What a returned error adds to the events. *)
Definition reported (err : error) : list event :=
  match err with
  | Some e => [EvStderr (e ++ nl)]
  | None => []
  end.

Lemma foldr_insert_lookup (cs : cmds) (l : list nat) (h : helpers) (hr : nat) :
  hr ∈ l -> foldr (fun hlp h => <[hlp := cs]> h) h l !! hr = Some cs.
Proof.
  induction l as [|k l IH]; intros Hin; [inversion Hin|]. simpl.
  destruct (decide (k = hr)) as [->|Hne].
  - apply lookup_insert_eq.
  - rewrite lookup_insert_ne by exact Hne. apply IH.
    apply elem_of_cons in Hin as [Hin|Hin]; [congruence | exact Hin].
Qed.

Lemma wellFormed_fields (c : Cdef) :
  wellFormed c = true ->
  NmLong c <> [] /\ (len (NmShort c) <= len (NmLong c))%nat /\
  is_Some (Parse c) /\ is_Some (Run c) /\ Help c <> [].
Proof.
  unfold wellFormed. rewrite !andb_true_iff, !negb_true_iff, !bool_decide_eq_true.
  intros ((((H1 & H2) & H3) & H4) & H5).
  apply Nat.leb_le in H2.
  repeat split; try assumption.
  - intros E. apply string_eq_nil in E. congruence.
  - intros E. apply string_eq_nil in E. congruence.
Qed.

(** Every entry of a table made by [validate] is callable in the store
    [validate] leaves. *)
Lemma validate_callable (cds : list Cdef) (h h' : helpers) (cs : cmds) :
  validate cds h = ((Some cs, None), h') -> Forall (callable h') (cmmds cs).
Proof.
  intros Hv. apply validate_accepted in Hv as (_ & Hok & Hcs & ->).
  rewrite Hcs at 1. cbn [cmmds]. apply Forall_forall. intros e He.
  apply list_elem_of_fmap in He as (c & -> & Hc).
  rewrite Forall_forall in Hok. pose proof (Hok c Hc) as Hwf.
  destruct (wellFormed_fields c Hwf) as (_ & _ & HP & HR & _).
  split; [exact HP|]. cbn [lowered cdef_Cdef].
  destruct (Run c) as [[hr|run]|] eqn:ER; [| exact I | destruct HR; discriminate].
  eexists. apply foldr_insert_lookup.
  apply list_elem_of_In. rewrite <- in_rev. unfold help_addresses.
  apply in_flat_map. exists c.
  split; [apply list_elem_of_In, Hc|]. rewrite Hwf, ER. left. reflexivity.
Qed.

(** The line is dispatched in the order normalize, select, parse, run. *)
Lemma cmdParseRun_spec (cmds : list cdef) (cmdLn : gostring) (m : machine) :
  Forall (callable (helps m)) cmds ->
  let '(cmdNm, cmdArg) := cmdNormalize cmdLn in
  exists m',
    cmdParseRun cmds cmdLn m = Some (tt, m') /\ helps m' = helps m /\
    match cmdSelect cmds cmdNm with
    | (_, Some e) =>
        backend m' = backend m /\ events m' = events m ++ [EvStderr (e ++ nl)]
    | (cmd, None) =>
        exists p r,
          Parse (cdef_Cdef cmd) = Some p /\ Run (cdef_Cdef cmd) = Some r /\
          let cmdln := cmdNm ++ str " " ++ cmdArg in
          let '((args, perr), w1) := p cmdln (backend m) in
          match perr with
          | Some e =>
              backend m' = w1 /\
              events m' = events m
                          ++ [EvParse (NmLong (cdef_Cdef cmd)) cmdln; EvStderr (e ++ nl)]
          | None =>
              match r with
              | Runner_of run =>
                  let '(rerr, w2) := run args w1 in
                  backend m' = w2 /\
                  events m' = events m
                              ++ [EvParse (NmLong (cdef_Cdef cmd)) cmdln;
                                  EvRun (NmLong (cdef_Cdef cmd)) args]
                              ++ reported rerr
              | helpRunner_at hr =>
                  exists cs,
                    helps m !! hr = Some cs /\ backend m' = w1 /\
                    events m' = events m
                                ++ [EvParse (NmLong (cdef_Cdef cmd)) cmdln;
                                    EvRun (NmLong (cdef_Cdef cmd)) args;
                                    EvStdout (str "Help :" ++ nl)]
                                ++ concat (map helpLines (cmmds cs))
              end
          end
    end.
Proof.
  intros Hok. unfold cmdParseRun.
  destruct (cmdNormalize cmdLn) as [cmdNm cmdArg].
  destruct (cmdSelect cmds cmdNm) as [cmd [e|]] eqn:Hsel.
  - eexists. split; [reflexivity|].
    split; [reflexivity|].
    split; reflexivity.
  - apply cmdSelect_elem in Hsel. rewrite Forall_forall in Hok.
    destruct (Hok cmd Hsel) as [[p HP] HR].
    destruct (Run (cdef_Cdef cmd)) as [r|] eqn:ER; [|contradiction].
    unfold mbind, M_bind, bind, call_Parse, call_Run. rewrite HP, ER.
    unfold mbind, M_bind, bind, emit, on_backend, Fprintf_Stderr, emit.
    cbn [backend events helps].
    destruct (p (cmdNm ++ str " " ++ cmdArg) (backend m)) as [[args [e|]] w1] eqn:Ep.
    + eexists. split; [reflexivity|].
      split; [reflexivity|].
      exists p, r. split; [reflexivity|]. split; [reflexivity|].
      cbv zeta. rewrite Ep. cbn [backend events]. split; [reflexivity|].
      rewrite <- app_assoc. reflexivity.
    + destruct r as [hr|run].
      * destruct HR as [cs Hcs].
        unfold helpRunner_Run, mbind, M_bind, bind, emit, deref_cs, ret.
        cbn [backend events helps]. rewrite Hcs. cbn [backend events helps].
        eexists. split; [reflexivity|].
        split; [reflexivity|].
        exists p, (helpRunner_at hr). split; [reflexivity|]. split; [reflexivity|].
        cbv zeta. rewrite Ep. exists cs. cbn [backend events].
        split; [exact Hcs|]. split; [reflexivity|].
        rewrite <- !app_assoc. reflexivity.
      * cbn [backend events helps].
        destruct (run args w1) as [[e|] w2] eqn:Er; cbn [backend events helps];
          (eexists; split; [reflexivity|]);
          (split; [reflexivity|]);
          exists p, (Runner_of run); (split; [reflexivity|]); (split; [reflexivity|]);
          cbv zeta; rewrite Ep, Er; cbn [backend events reported];
          (split; [reflexivity|]); rewrite <- ?app_assoc, ?app_nil_r; reflexivity.
Qed.

(** C1.  For a table whose entries are callable, [cmdParseRun] normalizes
    the line, selects, parses and runs, and returns.  When selection fails
    its error goes to the error sink and nothing is called.  Otherwise the
    parser of the selected entry is called with the command name, a space
    and the remainder; when it fails its error goes to the error sink and
    the runner is not called; otherwise the runner is called with the
    parsed arguments, and its error, if any, goes to the error sink.
    Whichever of these happens, the dispatch loop goes on to what it
    receives next. *)
Theorem cmdParseRun_pipeline (cmds : list cdef) (cmdLn : gostring) (m : machine) :
  Forall (callable (helps m)) cmds ->
  let '(cmdNm, cmdArg) := cmdNormalize cmdLn in
  exists m',
    cmdParseRun cmds cmdLn m = Some (tt, m') /\ helps m' = helps m /\
    (forall (rs : list recv) (n : nat),
        processCmdLn_from cmds (RecvLine cmdLn :: rs) (mkloop Running n m)
        = processCmdLn_from cmds rs (mkloop Running n m')) /\
    match cmdSelect cmds cmdNm with
    | (_, Some e) =>
        backend m' = backend m /\ events m' = events m ++ [EvStderr (e ++ nl)]
    | (cmd, None) =>
        exists p r,
          Parse (cdef_Cdef cmd) = Some p /\ Run (cdef_Cdef cmd) = Some r /\
          let cmdln := cmdNm ++ str " " ++ cmdArg in
          let '((args, perr), w1) := p cmdln (backend m) in
          match perr with
          | Some e =>
              backend m' = w1 /\
              events m' = events m
                          ++ [EvParse (NmLong (cdef_Cdef cmd)) cmdln; EvStderr (e ++ nl)]
          | None =>
              match r with
              | Runner_of run =>
                  let '(rerr, w2) := run args w1 in
                  backend m' = w2 /\
                  events m' = events m
                              ++ [EvParse (NmLong (cdef_Cdef cmd)) cmdln;
                                  EvRun (NmLong (cdef_Cdef cmd)) args]
                              ++ reported rerr
              | helpRunner_at hr =>
                  exists cs,
                    helps m !! hr = Some cs /\ backend m' = w1 /\
                    events m' = events m
                                ++ [EvParse (NmLong (cdef_Cdef cmd)) cmdln;
                                    EvRun (NmLong (cdef_Cdef cmd)) args;
                                    EvStdout (str "Help :" ++ nl)]
                                ++ concat (map helpLines (cmmds cs))
              end
          end
    end.
Proof.
  intros Hok. pose proof (cmdParseRun_spec cmds cmdLn m Hok) as Hspec.
  destruct (cmdNormalize cmdLn) as [cmdNm cmdArg].
  destruct Hspec as (m' & Hrun & Hhelps & Hcases).
  exists m'. split; [exact Hrun|]. split; [exact Hhelps|]. split; [|exact Hcases].
  intros rs n. cbn [processCmdLn_from at_ processCmdLn_select mach closes].
  rewrite Hrun. reflexivity.
Qed.


(** C9.  The parser of [ParseNone] returns a nil slice and a nil error on
    every command line and leaves the backend as it is; so for a selected
    entry with that parser [cmdParseRun] writes no parse error and goes on
    to call the entry's runner with the nil slice, which has no elements. *)
Theorem ParseNone_never_fails :
  (forall (cmdln : gostring) (w : W), ParseNone cmdln w = ((None, None), w)) /\
  args_len None = 0%nat /\
  (forall (cmds : list cdef) (cmdLn : gostring) (m : machine) (cmd : cdef),
      cmdSelect cmds (cmdNormalize cmdLn).1 = (cmd, None) ->
      Parse (cdef_Cdef cmd) = Some ParseNone ->
      cmdParseRun cmds cmdLn m
      = (err ← call_Run cmd None;
         match err with
         | Some e => Fprintf_Stderr e
         | None => ret tt
         end)
          (mkmachine (backend m)
             (events m ++ [EvParse (NmLong (cdef_Cdef cmd))
                             ((cmdNormalize cmdLn).1 ++ str " " ++ (cmdNormalize cmdLn).2)])
             (helps m))).
Proof.
  split; [reflexivity|]. split; [reflexivity|].
  intros cmds cmdLn m cmd Hsel HP. unfold cmdParseRun.
  destruct (cmdNormalize cmdLn) as [cmdNm cmdArg]. cbn [fst snd] in *.
  rewrite Hsel. unfold mbind, M_bind, bind, call_Parse. rewrite HP.
  reflexivity.
Qed.

(** ** Blank lines *)

Lemma cmdNormalize_blank (cmdln : gostring) :
  Forall isSpace cmdln -> cmdNormalize cmdln = ([], []).
Proof.
  intros H. rewrite cmdNormalize_no_space; rewrite (TrimSpace_all _ H).
  - reflexivity.
  - apply not_elem_of_nil.
Qed.

Lemma ToLower_nil (s : gostring) : ToLower s = [] -> s = [].
Proof. unfold strings.ToLower. apply map_eq_nil. Qed.

Lemma cmdSelect_empty_name (cds : list Cdef) :
  Forall (fun c => wellFormed c = true) cds ->
  Exists (fun c => NmShort c = []) cds ->
  exists pre c post,
    cds = pre ++ c :: post /\ Forall (fun c' => NmShort c' <> []) pre /\
    NmShort c = [] /\ cmdSelect (map lowered cds) [] = (lowered c, None).
Proof.
  induction 1 as [|c0 cds Hc0 Hok IH]; intros Hex; [inversion Hex|].
  destruct (decide (NmShort c0 = [])) as [E0|N0].
  - exists [], c0, cds. repeat split; [constructor | exact E0 |].
    simpl. rewrite E0. reflexivity.
  - inversion Hex as [? ? Hhd|? ? Htl]; subst; [contradiction|].
    destruct (IH Htl) as (pre & c & post & -> & Hpre & Hc & Hsel).
    exists (c0 :: pre), c, post.
    repeat split; [constructor; assumption | exact Hc |].
    cbn [map cmdSelect lowered nmShortL nmLongL].
    destruct (wellFormed_fields c0 Hc0) as (HL & _).
    assert (E1 : string_eq [] (ToLower (NmShort c0)) = false).
    { apply bool_decide_eq_false. intros E. symmetry in E.
      apply ToLower_nil in E. contradiction. }
    assert (E2 : string_eq [] (ToLower (NmLong c0)) = false).
    { apply bool_decide_eq_false. intros E. symmetry in E.
      apply ToLower_nil in E. contradiction. }
    rewrite E1, E2. exact Hsel.
Qed.

(** C10.  In a table made by [validate] from definitions of which one has
    an empty short name, a line of white space only normalizes to the
    empty command name, and [cmdSelect] answers with the first entry whose
    short name is empty, not with an error: [cmdParseRun] calls that
    entry's parser, on the line [" "]. *)
Theorem blank_line_selects_empty_short_name
    (cds : list Cdef) (h h' : helpers) (cs : cmds) (cmdln : gostring) :
  validate cds h = ((Some cs, None), h') ->
  Exists (fun c => NmShort c = []) cds ->
  Forall isSpace cmdln ->
  cmdNormalize cmdln = ([], []) /\
  exists pre c post,
    cds = pre ++ c :: post /\ Forall (fun c' => NmShort c' <> []) pre /\
    NmShort c = [] /\
    cmdSelect (cmmds cs) (cmdNormalize cmdln).1 = (lowered c, None) /\
    forall m : machine,
      helps m = h' ->
      exists m' rest,
        cmdParseRun (cmmds cs) cmdln m = Some (tt, m') /\
        events m' = events m ++ EvParse (NmLong c) (str " ") :: rest.
Proof.
  intros Hv Hex Hblank.
  pose proof (validate_callable _ _ _ _ Hv) as Hcall.
  pose proof (cmdNormalize_blank _ Hblank) as Hn.
  apply validate_accepted in Hv as (_ & Hok & Hcs & _).
  split; [exact Hn|].
  destruct (cmdSelect_empty_name cds Hok Hex) as (pre & c & post & E & Hpre & Hc & Hsel).
  exists pre, c, post. rewrite Hn, Hcs. cbn [fst cmmds].
  repeat split; [exact E | exact Hpre | exact Hc | exact Hsel |].
  intros m Hm. subst h'. rewrite Hcs in Hcall. cbn [cmmds] in Hcall.
  pose proof (cmdParseRun_spec (map lowered cds) cmdln m Hcall) as Hspec.
  rewrite Hn, Hsel in Hspec.
  destruct Hspec as (m' & Hrun & _ & p & r & HP & HR & Hev).
  exists m'. cbv zeta in Hev. cbn [lowered cdef_Cdef] in Hev.
  change ([] ++ str " " ++ []) with (str " ") in Hev.
  destruct (p (str " ") (backend m)) as [[args [e|]] w1].
  - destruct Hev as [_ Hev]. eexists. split; [exact Hrun|]. exact Hev.
  - destruct r as [hr|run].
    + destruct Hev as (cs' & _ & _ & Hev). eexists. split; [exact Hrun|].
      rewrite Hev. cbn [app]. reflexivity.
    + destruct (run args w1) as [rerr w2]. destruct Hev as [_ Hev].
      eexists. split; [exact Hrun|]. rewrite Hev. cbn [app]. reflexivity.
Qed.

(** ** The dispatch loop *)

(** What makes the loop return: the closure of the line channel, or
    [true] on the shutdown channel. *)
Definition stops (r : recv) : bool :=
  match r with
  | RecvLine _ => false
  | RecvClosed => true
  | RecvShutdown sd => sd
  end.

Lemma loop_closes (cmds : list cdef) (rs : list recv) :
  forall l : loop,
    closes l = match at_ l with Running => 0%nat | _ => 1%nat end ->
    closes (processCmdLn_from cmds rs l)
    = match at_ (processCmdLn_from cmds rs l) with Running => 0%nat | _ => 1%nat end.
Proof.
  induction rs as [|r rs IH]; intros l Hl; [exact Hl|].
  cbn [processCmdLn_from]. destruct (at_ l) eqn:El; try (rewrite El; exact Hl).
  apply IH. destruct r as [cmdLn| |[|]]; cbn [processCmdLn_select].
  - destruct (cmdParseRun cmds cmdLn (mach l)) as [[u m]|]; cbn; [|rewrite Hl]; auto.
  - cbn. rewrite Hl. reflexivity.
  - cbn. rewrite Hl. reflexivity.
  - rewrite El. exact Hl.
Qed.

Lemma loop_phase (cmds : list cdef) (rs : list recv) :
  forall (n : nat) (m : machine),
    Forall (callable (helps m)) cmds ->
    at_ (processCmdLn_from cmds rs (mkloop Running n m))
    = if existsb stops rs then Terminated else Running.
Proof.
  induction rs as [|r rs IH]; intros n m Hok; [reflexivity|].
  destruct r as [cmdLn| |[|]].
  - pose proof (cmdParseRun_spec cmds cmdLn m Hok) as Hspec.
    destruct (cmdNormalize cmdLn) as [cmdNm cmdArg].
    destruct Hspec as (m' & Hrun & Hh & _).
    cbn [processCmdLn_from at_ processCmdLn_select mach closes existsb stops orb].
    rewrite Hrun. apply IH. rewrite Hh. exact Hok.
  - cbn. destruct rs; reflexivity.
  - cbn. destruct rs; reflexivity.
  - cbn [processCmdLn_from at_ processCmdLn_select existsb stops orb]. apply IH, Hok.
Qed.

(** C7.  The dispatch loop has two states.  Running, it returns when it
    receives [true] on the shutdown channel or finds the line channel
    closed, and as it returns it closes the shutdown channel; on [false] it
    stays as it is, machine included, so nothing is dispatched.  Whatever
    it receives, it has closed the shutdown channel not at all while it is
    running and exactly once when it has returned; and with a table whose
    entries are callable it has returned exactly when one of the things it
    received makes it return, and is running otherwise. *)
Theorem processCmdLn_two_states :
  (forall (cmds : list cdef) (l : loop),
      processCmdLn_select cmds (RecvShutdown true) l
      = mkloop Terminated (S (closes l)) (mach l)) /\
  (forall (cmds : list cdef) (l : loop),
      processCmdLn_select cmds RecvClosed l
      = mkloop Terminated (S (closes l)) (mach l)) /\
  (forall (cmds : list cdef) (l : loop),
      processCmdLn_select cmds (RecvShutdown false) l = l) /\
  (forall (cmds : list cdef) (rs : list recv) (m : machine),
      closes (processCmdLn cmds rs m)
      = match at_ (processCmdLn cmds rs m) with Running => 0%nat | _ => 1%nat end) /\
  (forall (cmds : list cdef) (rs : list recv) (m : machine),
      Forall (callable (helps m)) cmds ->
      at_ (processCmdLn cmds rs m)
      = if existsb stops rs then Terminated else Running).
Proof.
  repeat split.
  - intros cmds rs m. apply loop_closes. reflexivity.
  - intros cmds rs m Hok. apply loop_phase, Hok.
Qed.


(** * Further properties of the package *)

(** ** What [cdefVerify] accepts and how its errors read *)

Lemma wellFormed_intro (c : Cdef) :
  NmLong c <> [] -> (len (NmShort c) <= len (NmLong c))%nat ->
  Parse c <> None -> Run c <> None -> Help c <> [] ->
  wellFormed c = true.
Proof.
  intros HL HS HP HR HH. unfold wellFormed.
  rewrite !andb_true_iff, !negb_true_iff, !bool_decide_eq_true. repeat split.
  - apply bool_decide_eq_false. exact HL.
  - apply Nat.leb_le. exact HS.
  - destruct (Parse c); [eauto | congruence].
  - destruct (Run c); [eauto | congruence].
  - apply bool_decide_eq_false. exact HH.
Qed.

(** X1.  [cdefVerify] returns a nil error exactly for a definition with a
    long name, a short name of no more bytes than the long one, a parser, a
    runner and a help text; the alternative name plays no part in that. *)
Theorem cdefVerify_accepts_iff (c : Cdef) (altNm : gostring) :
  cdefVerify c altNm = None <->
  NmLong c <> [] /\ (len (NmShort c) <= len (NmLong c))%nat /\
  Parse c <> None /\ Run c <> None /\ Help c <> [].
Proof.
  rewrite cdefVerify_wellFormed. split.
  - intros H. destruct (wellFormed_fields c H) as (HL & HS & [p HP] & [r HR] & HH).
    repeat split; try assumption; congruence.
  - intros (HL & HS & HP & HR & HH). apply wellFormed_intro; assumption.
Qed.

(** The text of an error begins with [pre]. *)
Definition begins (pre : gostring) (e : error) : Prop :=
  exists rest, e = Some (pre ++ rest).

(** The text of an error ends with [post]. *)
Definition ends (post : gostring) (e : error) : Prop :=
  exists body, e = Some (body ++ post).

Lemma begins_first (err : error) :
  begins (str "%!s(<nil>)") (errorsConcat None err).
Proof. eexists. reflexivity. Qed.

Lemma begins_next (pre : gostring) (errs err : error) :
  begins pre errs -> begins pre (errorsConcat errs err).
Proof.
  intros [rest ->]. unfold errorsConcat. simpl. rewrite <- app_assoc. eexists. reflexivity.
Qed.

Ltac find_begin := solve [ apply begins_first | apply begins_next; find_begin ].

Lemma cdefVerify_begins (c : Cdef) (altNm : gostring) :
  cdefVerify c altNm = None \/ begins (str "%!s(<nil>)") (cdefVerify c altNm).
Proof.
  unfold cdefVerify.
  destruct (string_eq (NmLong c) (str ""));
    [|destruct (len (NmLong c) <? len (NmShort c))%nat];
    destruct (Parse c), (Run c), (string_eq (Help c) (str ""));
    first [left; reflexivity | right; find_begin].
Qed.

Lemma cdefVerify_ends (c : Cdef) (altNm : gostring) :
  cdefVerify c altNm = None \/ ends nl (cdefVerify c altNm).
Proof.
  unfold cdefVerify.
  destruct (string_eq (NmLong c) (str ""));
    [|destruct (len (NmLong c) <? len (NmShort c))%nat];
    destruct (Parse c), (Run c), (string_eq (Help c) (str ""));
    first [left; reflexivity
          | right; unfold errorsConcat, ends; rewrite app_assoc; eexists; reflexivity].
Qed.

Lemma errors_from_shape (cds : list Cdef) :
  forall (i : nat) (errs : error),
    errs = None \/
    (begins (str "%!s(<nil>)%!s(<nil>)") errs /\ ends (nl ++ nl) errs) ->
    errors_from i cds errs = None \/
    (begins (str "%!s(<nil>)%!s(<nil>)") (errors_from i cds errs) /\
     ends (nl ++ nl) (errors_from i cds errs)).
Proof.
  induction cds as [|c cds IH]; intros i errs H; simpl; [exact H|].
  destruct (cdefVerify c (strconv.Itoa i)) as [err|] eqn:E; [|apply IH, H].
  apply IH. right.
  destruct (cdefVerify_begins c (strconv.Itoa i)) as [N|[rest Hb]]; [congruence|].
  destruct (cdefVerify_ends c (strconv.Itoa i)) as [N|[body He]]; [congruence|].
  rewrite E in Hb, He. injection Hb as Hb. injection He as He.
  split.
  - destruct H as [->|[Hbeg _]].
    + rewrite Hb. unfold errorsConcat. simpl. eexists. reflexivity.
    + apply begins_next, Hbeg.
  - rewrite He. unfold errorsConcat, ends. simpl.
    exists (fmt.verb_s errs ++ body). rewrite <- !app_assoc. reflexivity.
Qed.

(** X2.  Every error of [cdefVerify] begins with the text that [%s] gives
    for a nil error, ["%!s(<nil>)"], and ends with a newline; the error of
    [validate] on a non-empty sequence, when there is one, begins with that
    text twice and ends with two newlines. *)
Theorem validation_error_text :
  (forall (c : Cdef) (altNm : gostring) (text : gostring),
      cdefVerify c altNm = Some text ->
      (exists rest, text = str "%!s(<nil>)" ++ rest) /\
      (exists body, text = body ++ nl)) /\
  (forall (cds : list Cdef) (h : helpers) (text : gostring),
      cds <> [] -> (validate cds h).1.2 = Some text ->
      (exists rest, text = str "%!s(<nil>)%!s(<nil>)" ++ rest) /\
      (exists body, text = body ++ nl ++ nl)).
Proof.
  split.
  - intros c altNm text E.
    destruct (cdefVerify_begins c altNm) as [N|[rest Hb]]; [congruence|].
    destruct (cdefVerify_ends c altNm) as [N|[body He]]; [congruence|].
    rewrite E in Hb, He. injection Hb as ->. injection He as He.
    split; [exists rest; reflexivity | exists body; exact He].
  - intros cds h text Hne. rewrite validate_eq.
    destruct cds as [|c cds]; [congruence|]. cbv beta iota zeta. cbn [fst snd].
    intros E.
    destruct (errors_from_shape (c :: cds) 0 None (or_introl eq_refl))
      as [N|[[rest Hb] [body He]]]; [congruence|].
    rewrite E in Hb, He. injection Hb as ->. injection He as He.
    split; [exists rest; reflexivity | exists body; exact He].
Qed.

(** ** The table and the store [validate] leaves *)

Lemma map_lookup {A B : Type} (f : A -> B) (l : list A) (i : nat) (a : A) :
  l !! i = Some a -> map f l !! i = Some (f a).
Proof.
  revert i. induction l as [|x l IH]; intros [|i] H; try discriminate.
  - injection H as ->. reflexivity.
  - simpl in *. apply IH, H.
Qed.

(** X3.  On a non-empty sequence [validate] returns a table as long as the
    sequence and in its order, whatever the error: at the index of a
    definition that [cdefVerify] accepts stands the definition with its two
    names lower-cased, at the index of one it rejects the zero entry. *)
Theorem validate_keeps_order (cds : list Cdef) (h : helpers) :
  cds <> [] ->
  exists cs,
    (validate cds h).1.1 = Some cs /\
    length (cmmds cs) = length cds /\
    forall (i : nat) (c : Cdef),
      cds !! i = Some c ->
      cmmds cs !! i
      = Some match cdefVerify c (strconv.Itoa i) with
             | None => mkcdef c (ToLower (NmShort c)) (ToLower (NmLong c))
             | Some _ => cdef_zero
             end.
Proof.
  intros Hne. exists (mkcmds (map entry_of cds)).
  split; [apply validate_table, Hne|]. cbn [cmmds].
  split; [apply length_map|].
  intros i c Hi. rewrite (map_lookup entry_of cds i c Hi). f_equal.
  unfold entry_of.
  destruct (cdefVerify c (strconv.Itoa i)) as [err|] eqn:E.
  - destruct (wellFormed c) eqn:Hw; [|reflexivity].
    apply (cdefVerify_wellFormed c (strconv.Itoa i)) in Hw. congruence.
  - apply cdefVerify_wellFormed in E. rewrite E. reflexivity.
Qed.

Lemma foldr_insert_other (cs : cmds) (l : list nat) (h : helpers) (hr : nat) :
  hr ∉ l -> foldr (fun hlp h => <[hlp := cs]> h) h l !! hr = h !! hr.
Proof.
  induction l as [|k l IH]; intros Hnot; [reflexivity|]. simpl.
  apply not_elem_of_cons in Hnot as [Hne Hnot].
  rewrite lookup_insert_ne by congruence. apply IH, Hnot.
Qed.

Lemma help_addresses_elem (cds : list Cdef) (hr : nat) :
  hr ∈ rev (help_addresses cds) <->
  exists c, c ∈ cds /\ wellFormed c = true /\ Run c = Some (helpRunner_at hr).
Proof.
  rewrite list_elem_of_In, <- in_rev. unfold help_addresses. rewrite in_flat_map.
  split.
  - intros (c & Hc & Hin). exists c. apply list_elem_of_In in Hc.
    destruct (wellFormed c); [|destruct Hin].
    destruct (Run c) as [[hlp|run]|]; try destruct Hin as [<-|[]]; try destruct Hin.
    auto.
  - intros (c & Hc & Hw & HR). exists c. apply list_elem_of_In in Hc.
    split; [exact Hc|]. rewrite Hw, HR. left. reflexivity.
Qed.

(** X4.  [validate] sets the [cs] of the [helpRunner] of every definition
    it accepts to the table it returns, also when it returns an error for
    other definitions, and leaves every other [helpRunner] object as it
    was. *)
Theorem validate_patches (cds : list Cdef) (h : helpers) (hr : nat) :
  ((exists c, c ∈ cds /\ cdefVerify c [] = None /\ Run c = Some (helpRunner_at hr)) ->
   exists cs, (validate cds h).1.1 = Some cs /\ (validate cds h).2 !! hr = Some cs) /\
  ((forall c, c ∈ cds -> Run c = Some (helpRunner_at hr) -> cdefVerify c [] <> None) ->
   (validate cds h).2 !! hr = h !! hr).
Proof.
  rewrite validate_eq. split.
  - intros (c & Hc & Hv & HR).
    destruct cds as [|c0 cds]; [inversion Hc|]. cbv beta iota zeta. cbn [fst snd].
    eexists. split; [reflexivity|]. apply foldr_insert_lookup.
    apply help_addresses_elem. exists c.
    apply cdefVerify_wellFormed in Hv. auto.
  - intros Hnone. destruct cds as [|c0 cds]; [reflexivity|].
    cbv beta iota zeta. cbn [snd]. apply foldr_insert_other.
    intros Hin. apply help_addresses_elem in Hin as (c & Hc & Hw & HR).
    apply (Hnone c Hc HR). apply cdefVerify_wellFormed. exact Hw.
Qed.

(** X5.  After [validate] has accepted a sequence of definitions, the
    [helpRunner] of any of them prints the header and then, for every
    definition of the sequence in its order, itself included, the line of
    its names and argument description and the line of its help text; it
    returns a nil error, whatever its arguments, and leaves the backend
    alone. *)
Theorem help_lists_table (cds : list Cdef) (h h' : helpers) (cs : cmds)
    (c : Cdef) (hr : nat) (args : args_t) (m : machine) :
  validate cds h = ((Some cs, None), h') ->
  c ∈ cds -> Run c = Some (helpRunner_at hr) -> helps m = h' ->
  helpRunner_Run hr args m
  = Some (None,
          mkmachine (backend m)
            (events m
             ++ EvStdout (str "Help :" ++ nl)
                :: concat (map (fun d : Cdef =>
                     [EvStdout (NmShort d ++ str "," ++ NmLong d ++ str " "
                                ++ ArgDesc d ++ nl);
                      EvStdout (str "    " ++ Help d ++ nl)]) cds))
            (helps m)).
Proof.
  intros Hv Hc HR Hm.
  apply validate_accepted in Hv as (_ & Hok & Hcs & Hh).
  assert (Hlook : helps m !! hr = Some cs).
  { rewrite Hm, Hh. apply foldr_insert_lookup, help_addresses_elem.
    exists c. rewrite Forall_forall in Hok. auto. }
  unfold helpRunner_Run, mbind, M_bind, bind, emit, deref_cs, ret.
  cbn [backend events helps]. rewrite Hlook. cbn [backend events helps].
  rewrite Hcs. cbn [cmmds]. rewrite map_map. rewrite <- app_assoc. reflexivity.
Qed.

(** X6.  [start] never dereferences a nil table.  It returns a channel
    exactly when it returns no error, and when it returns an error it has
    made no channel and launched no goroutine; it returns an error for the
    empty sequence and for every sequence with a definition that
    [cdefVerify] rejects. *)
Theorem start_channel_or_error (cds : list Cdef) (rCmdLn : Reader) (rt : runtime) :
  exists shutdown err rt',
    start cds rCmdLn rt = Some ((shutdown, err), rt') /\
    (shutdown = None <-> err <> None) /\
    (err <> None <-> cds = [] \/ Exists (fun c => cdefVerify c [] <> None) cds) /\
    (err <> None ->
     rt_chans rt' = rt_chans rt /\ rt_goroutines rt' = rt_goroutines rt).
Proof.
  unfold start. rewrite validate_eq. destruct cds as [|c cds].
  - do 3 eexists. split; [reflexivity|]. cbn.
    repeat split; auto; try discriminate.
  - cbv beta iota zeta.
    destruct (errors_from 0 (c :: cds) None) as [errs|] eqn:E.
    + do 3 eexists. split; [reflexivity|]. cbn [rt_chans rt_goroutines].
      repeat split; auto; try discriminate.
      intros _. right. apply not_Forall_Exists; [intros x; apply _|].
      intros Hall.
      assert (N : errors_from 0 (c :: cds) None = None).
      { apply errors_from_None. split; [reflexivity|].
        eapply Forall_impl; [exact Hall|]. intros d Hd. cbv beta in Hd.
        apply (cdefVerify_wellFormed d []). exact Hd. }
      congruence.
    + do 3 eexists. split; [reflexivity|].
      apply errors_from_None in E as [_ Hok].
      repeat split; try congruence.
      intros [N|Hex]; [discriminate|]. exfalso.
      apply Exists_exists in Hex as (d & Hd & Hbad). rewrite Forall_forall in Hok.
      apply Hbad. apply cdefVerify_wellFormed. apply Hok, Hd.
Qed.


(** ** The shape of what [cmdNormalize] returns *)

Lemma TrimFunc_nil_all (f : rune -> bool) (s : gostring) :
  strings.TrimFunc s f = [] -> Forall (fun r => f r = true) s.
Proof.
  unfold strings.TrimFunc, strings.TrimRightFunc. intros E.
  destruct (TrimLeftFunc_split f s) as (p & Hp & Hall).
  pose proof (TrimLeftFunc_starts_ok f s) as Hu.
  set (u := strings.TrimLeftFunc s f) in *.
  destruct (TrimLeftFunc_split f (rev u)) as (q & Hq & Hqall).
  apply (f_equal (@rev rune)) in E. rewrite rev_involutive in E. simpl in E.
  rewrite E, app_nil_r in Hq.
  destruct u as [|r u'].
  - rewrite Hp, app_nil_r. exact Hall.
  - exfalso. simpl in Hu. rewrite Forall_forall in Hqall.
    assert (Hin : r ∈ q).
    { rewrite <- Hq. apply list_elem_of_In, in_rev. rewrite rev_involutive.
      left. reflexivity. }
    rewrite (Hqall r Hin) in Hu. discriminate.
Qed.

Lemma TrimFunc_sub_all (f : rune -> bool) (s : gostring) :
  exists p q,
    s = p ++ strings.TrimFunc s f ++ q /\
    Forall (fun r => f r = true) p /\ Forall (fun r => f r = true) q.
Proof.
  unfold strings.TrimFunc, strings.TrimRightFunc.
  destruct (TrimLeftFunc_split f s) as (p & Hp & Hpall).
  set (u := strings.TrimLeftFunc s f) in *.
  destruct (TrimLeftFunc_split f (rev u)) as (q & Hq & Hqall).
  exists p, (rev q). split; [|split; [exact Hpall | apply Forall_rev, Hqall]].
  rewrite Hp at 1. f_equal.
  rewrite <- rev_app_distr, <- Hq, rev_involutive. reflexivity.
Qed.

Lemma TrimLeftFunc_app_all (f : rune -> bool) (ws s : gostring) :
  Forall (fun r => f r = true) ws ->
  strings.TrimLeftFunc (ws ++ s) f = strings.TrimLeftFunc s f.
Proof.
  induction 1 as [|r ws Hr _ IH]; simpl; [reflexivity|]. rewrite Hr. exact IH.
Qed.

Lemma TrimFunc_pad (f : rune -> bool) (ws1 s ws2 : gostring) :
  Forall (fun r => f r = true) ws1 -> Forall (fun r => f r = true) ws2 ->
  strings.TrimFunc (ws1 ++ s ++ ws2) f = strings.TrimFunc s f.
Proof.
  intros H1 H2. unfold strings.TrimFunc.
  rewrite (TrimLeftFunc_app_all f ws1 _ H1).
  destruct (TrimLeftFunc_split f s) as (p & Hp & Hpall).
  pose proof (TrimLeftFunc_starts_ok f s) as Hu.
  set (u := strings.TrimLeftFunc s f) in *.
  rewrite Hp, <- app_assoc, (TrimLeftFunc_app_all f p _ Hpall).
  destruct u as [|r u'].
  - simpl. rewrite (TrimLeftFunc_all f ws2 H2). reflexivity.
  - rewrite (TrimLeftFunc_id f ((r :: u') ++ ws2)) by exact Hu.
    apply TrimRightFunc_app_all, H2.
Qed.

(** X7.  [cmdNormalize] returns the empty command name exactly for a line
    of white space only (the empty line included), and then the remainder
    is empty too. *)
Theorem cmdNormalize_empty_name (cmdln : gostring) :
  ((cmdNormalize cmdln).1 = [] <-> Forall isSpace cmdln) /\
  ((cmdNormalize cmdln).1 = [] -> (cmdNormalize cmdln).2 = []).
Proof.
  assert (Hblank : (cmdNormalize cmdln).1 = [] -> Forall isSpace cmdln).
  { destruct (rune_split 32 (TrimSpace cmdln)) as [Hno|(a & b & Hab & Ha)].
    - rewrite (cmdNormalize_no_space _ Hno). cbn [fst]. intros E.
      apply ToLower_nil in E. apply TrimFunc_nil_all, E.
    - rewrite (cmdNormalize_space _ _ _ Hab Ha). cbn [fst]. intros E.
      apply ToLower_nil in E. exfalso.
      destruct (TrimSpace_trimmed cmdln) as [Hl _]. rewrite Hab in Hl.
      destruct a as [|r a]; [simpl in Hl; discriminate|].
      revert E. apply TrimFunc_not_nil; [exact Hl | discriminate]. }
  split; [split; [exact Hblank|]|].
  - intros H. rewrite (cmdNormalize_blank _ H). reflexivity.
  - intros E. rewrite (cmdNormalize_blank _ (Hblank E)). reflexivity.
Qed.

(** X8.  White space before and after a line does not change what
    [cmdNormalize] returns for it, nor therefore what [cmdParseRun] does
    with it. *)
Theorem cmdNormalize_padding (ws1 cmdln ws2 : gostring) :
  Forall isSpace ws1 -> Forall isSpace ws2 ->
  cmdNormalize (ws1 ++ cmdln ++ ws2) = cmdNormalize cmdln /\
  forall (cmds : list cdef) (m : machine),
    cmdParseRun cmds (ws1 ++ cmdln ++ ws2) m = cmdParseRun cmds cmdln m.
Proof.
  intros H1 H2.
  assert (E : TrimSpace (ws1 ++ cmdln ++ ws2) = TrimSpace cmdln)
    by (apply TrimFunc_pad; assumption).
  assert (En : cmdNormalize (ws1 ++ cmdln ++ ws2) = cmdNormalize cmdln).
  { unfold cmdNormalize. rewrite E. reflexivity. }
  split; [exact En|]. intros cmds m. unfold cmdParseRun. rewrite En. reflexivity.
Qed.

(** X9.  A line reads: white space, a word without a space character,
    white space, the remainder, white space.  [cmdNormalize] returns the
    lower case of the word as the command name and the remainder as it
    stands in the line, in its own case; neither the word nor the remainder
    begins or ends with white space, and a remainder that is not empty is
    separated from the word by white space with a space character in it. *)
Theorem cmdNormalize_shape (cmdln : gostring) :
  exists p w mid q,
    cmdln = p ++ w ++ mid ++ (cmdNormalize cmdln).2 ++ q /\
    (cmdNormalize cmdln).1 = ToLower w /\
    (32 ∉ w) /\
    trimmed unicode.IsSpace w /\ trimmed unicode.IsSpace (cmdNormalize cmdln).2 /\
    Forall isSpace p /\ Forall isSpace mid /\ Forall isSpace q /\
    ((cmdNormalize cmdln).2 <> [] -> 32 ∈ mid).
Proof.
  destruct (TrimFunc_sub_all unicode.IsSpace cmdln) as (p & q & Hs & Hp & Hq).
  fold (TrimSpace cmdln) in Hs.
  destruct (rune_split 32 (TrimSpace cmdln)) as [Hno|(a & b & Hab & Ha)].
  - exists p, (TrimSpace cmdln), [], q.
    rewrite (cmdNormalize_no_space _ Hno). cbn [fst snd].
    repeat split; try assumption; try apply TrimSpace_trimmed; try constructor.
    congruence.
  - destruct (TrimFunc_sub_all unicode.IsSpace a) as (pa & qa & Hsa & Hpa & Hqa).
    destruct (TrimFunc_sub_all unicode.IsSpace b) as (pb & qb & Hsb & Hpb & Hqb).
    fold (TrimSpace a) in Hsa. fold (TrimSpace b) in Hsb.
    exists (p ++ pa), (TrimSpace a), (qa ++ 32 :: pb), (qb ++ q).
    rewrite (cmdNormalize_space _ _ _ Hab Ha). cbn [fst snd].
    split.
    { rewrite Hs at 1. rewrite Hab. rewrite Hsa at 1. rewrite Hsb at 1.
      rewrite <- !app_assoc. simpl. rewrite <- !app_assoc. reflexivity. }
    split; [reflexivity|].
    split; [apply TrimSpace_not_elem, Ha|].
    split; [apply TrimSpace_trimmed|]. split; [apply TrimSpace_trimmed|].
    split; [apply Forall_app; split; assumption|].
    split; [apply Forall_app; split; [assumption | constructor; [reflexivity | assumption]]|].
    split; [apply Forall_app; split; assumption|].
    intros _. apply elem_of_app. right. left.
Qed.

Section LowerCaseOfLines.

Hypothesis table_ok : caseTable_sound toLowerCase.

Lemma TrimLeftFunc_ToLower (s : gostring) :
  strings.TrimLeftFunc (ToLower s) unicode.IsSpace
  = ToLower (strings.TrimLeftFunc s unicode.IsSpace).
Proof.
  induction s as [|r s IH]; [reflexivity|]. simpl.
  rewrite (toLower_IsSpace table_ok). destruct (unicode.IsSpace r); [exact IH | reflexivity].
Qed.

Lemma TrimSpace_ToLower (s : gostring) : TrimSpace (ToLower s) = ToLower (TrimSpace s).
Proof.
  unfold strings.TrimSpace, strings.TrimFunc, strings.TrimRightFunc.
  rewrite TrimLeftFunc_ToLower. unfold strings.ToLower at 1. rewrite <- map_rev.
  fold (ToLower (rev (strings.TrimLeftFunc s unicode.IsSpace))).
  rewrite TrimLeftFunc_ToLower. unfold strings.ToLower. rewrite map_rev. reflexivity.
Qed.

(** X10.  The command name does not depend on the case of the line:
    [cmdNormalize] of the lower-cased line returns the same command name,
    and the lower case of the remainder. *)
Theorem cmdNormalize_case (cmdln : gostring) :
  cmdNormalize (ToLower cmdln)
  = ((cmdNormalize cmdln).1, ToLower (cmdNormalize cmdln).2).
Proof.
  destruct (rune_split 32 (TrimSpace cmdln)) as [Hno|(a & b & Hab & Ha)].
  - rewrite (cmdNormalize_no_space cmdln Hno). cbn [fst snd].
    rewrite cmdNormalize_no_space; rewrite TrimSpace_ToLower.
    + rewrite (ToLower_idem table_ok). reflexivity.
    + apply (ToLower_no_space table_ok), Hno.
  - rewrite (cmdNormalize_space cmdln a b Hab Ha). cbn [fst snd].
    assert (E : TrimSpace (ToLower cmdln) = ToLower a ++ 32 :: ToLower b).
    { rewrite TrimSpace_ToLower, Hab. unfold strings.ToLower.
      rewrite map_app. reflexivity. }
    rewrite (cmdNormalize_space _ _ _ E (ToLower_no_space table_ok a Ha)).
    rewrite !TrimSpace_ToLower, (ToLower_idem table_ok). reflexivity.
Qed.

End LowerCaseOfLines.


(** ** The dispatch loop, further *)

Lemma processCmdLn_from_left (cmds : list cdef) (rs : list recv) (l : loop) :
  at_ l <> Running -> processCmdLn_from cmds rs l = l.
Proof.
  intros H. destruct rs as [|r rs]; [reflexivity|]. simpl.
  destruct (at_ l); [congruence | reflexivity | reflexivity].
Qed.

Lemma processCmdLn_select_stops (cmds : list cdef) (r : recv) (l : loop) :
  stops r = true -> at_ (processCmdLn_select cmds r l) = Terminated.
Proof. destruct r as [cmdLn| |[|]]; try discriminate; reflexivity. Qed.

(** X11.  Once the loop has received what makes it return, nothing it might
    have received later changes anything: no later line is dispatched and
    the shutdown channel is not closed again. *)
Theorem processCmdLn_after_return
    (cmds : list cdef) (rs1 rs2 : list recv) (r : recv) (m : machine) :
  stops r = true ->
  processCmdLn cmds (rs1 ++ r :: rs2) m = processCmdLn cmds (rs1 ++ [r]) m.
Proof.
  intros Hr. unfold processCmdLn. generalize (mkloop Running 0 m).
  induction rs1 as [|r1 rs1 IH]; intros l.
  - cbn [app processCmdLn_from]. destruct (at_ l); try reflexivity.
    apply processCmdLn_from_left.
    rewrite (processCmdLn_select_stops cmds r l Hr). discriminate.
  - cbn [app processCmdLn_from]. destruct (at_ l); try reflexivity. apply IH.
Qed.

(** The receive is [false] on the shutdown channel. *)
Definition is_false (r : recv) : bool :=
  match r with
  | RecvShutdown false => true
  | _ => false
  end.

(** X12.  [false] on the shutdown channel counts for nothing: the loop ends
    up the same, in state, machine and closings, with these receives left
    out. *)
Theorem processCmdLn_false_ignored (cmds : list cdef) (rs : list recv) (m : machine) :
  processCmdLn cmds (List.filter (fun r => negb (is_false r)) rs) m
  = processCmdLn cmds rs m.
Proof.
  unfold processCmdLn. generalize (mkloop Running 0 m).
  induction rs as [|r rs IH]; intros l; [reflexivity|].
  destruct (is_false r) eqn:E.
  - destruct r as [cmdLn| |[|]]; try discriminate.
    cbn [List.filter is_false negb processCmdLn_from processCmdLn_select].
    rewrite IH. destruct (at_ l) eqn:El; [reflexivity| |];
      apply processCmdLn_from_left; rewrite El; discriminate.
  - cbn [List.filter]. rewrite E. cbn [negb processCmdLn_from].
    destruct (at_ l); [apply IH | reflexivity | reflexivity].
Qed.

Lemma cmdParseRun_extends (cmds : list cdef) (cmdLn : gostring) (m : machine) :
  Forall (callable (helps m)) cmds ->
  exists m' es,
    cmdParseRun cmds cmdLn m = Some (tt, m') /\
    events m' = events m ++ es /\ helps m' = helps m.
Proof.
  intros Hok. pose proof (cmdParseRun_spec cmds cmdLn m Hok) as Hspec.
  destruct (cmdNormalize cmdLn) as [cmdNm cmdArg].
  destruct Hspec as (m' & Hrun & Hh & Hcases). exists m'.
  destruct (cmdSelect cmds cmdNm) as [cmd [e|]].
  - destruct Hcases as [_ Hev]. eauto.
  - destruct Hcases as (p & r & _ & _ & Hev). cbv zeta in Hev.
    destruct (p (cmdNm ++ str " " ++ cmdArg) (backend m)) as [[args [e|]] w1].
    + destruct Hev as [_ Hev]. eauto.
    + destruct r as [hr|run].
      * destruct Hev as (cs & _ & _ & Hev). eauto.
      * destruct (run args w1) as [rerr w2]. destruct Hev as [_ Hev]. eauto.
Qed.

(** X13.  With a table whose entries are callable, the loop only adds to
    what has been recorded of calls and output, never takes away or
    rewrites, and it leaves the [helpRunner] objects as they are. *)
Theorem processCmdLn_log_grows (cmds : list cdef) (rs : list recv) (m : machine) :
  Forall (callable (helps m)) cmds ->
  exists es,
    events (mach (processCmdLn cmds rs m)) = events m ++ es /\
    helps (mach (processCmdLn cmds rs m)) = helps m.
Proof.
  unfold processCmdLn. generalize 0%nat. revert m.
  induction rs as [|r rs IH]; intros m n Hok.
  - exists []. cbn. rewrite app_nil_r. auto.
  - cbn [processCmdLn_from at_]. destruct r as [cmdLn| |[|]].
    + destruct (cmdParseRun_extends cmds cmdLn m Hok) as (m' & es & Hrun & Hev & Hh).
      cbn [processCmdLn_select mach closes]. rewrite Hrun.
      rewrite <- Hh in Hok. destruct (IH m' n Hok) as (es' & Hev' & Hh').
      exists (es ++ es'). rewrite Hev', Hev, Hh', Hh, app_assoc. auto.
    + rewrite processCmdLn_from_left by (cbn; discriminate).
      exists []. cbn. rewrite app_nil_r. auto.
    + rewrite processCmdLn_from_left by (cbn; discriminate).
      exists []. cbn. rewrite app_nil_r. auto.
    + cbn [processCmdLn_select]. apply IH, Hok.
Qed.

(** ** The line reader *)

(** [rCmdLn.ReadString('\n')]: the data, the error and the reader after
    the call; [None] when the call does not return. *)
Variable ReadString : Reader -> option ((gostring * error) * Reader).

(** How far [responseFetch] has got: it has returned, which closes [resp];
    it is blocked in [ReadString]; it is blocked in the send
    [resp <- cmdLn], which nothing receives any more; or it is still in
    its loop. *)
Inductive fetch_end : Type := Closed | Blocked | Sending | Reading.

(** [func responseFetch(resp chan<- string, rCmdLn *bufio.Reader)], for at
    most [fuel] turns of its loop: the lines it has sent on [resp], in
    order, what it prints on the standard output, and how far it has got.
    [resp] has no buffer, so a send completes only when the dispatch loop
    receives: [takes] is the number of lines the loop still receives
    before it returns, [None] for a loop that goes on receiving. *)
Fixpoint responseFetch (fuel : nat) (takes : option nat) (rCmdLn : Reader)
    : list gostring * list gostring * fetch_end :=
  match fuel with
  | O => ([], [], Reading)
  | S fuel' =>
      match ReadString rCmdLn with
      | None => ([], [], Blocked)
      | Some ((cmdLn, Some err), _) =>
          ([], [str "Abort: unexpected " ++ err ++ nl], Closed)
      | Some ((cmdLn, None), rCmdLn') =>
          match takes with
          | Some O => ([], [], Sending)
          | _ =>
              let '(sent, printed, e) :=
                responseFetch fuel' (Nat.pred <$> takes) rCmdLn' in
              (cmdLn :: sent, printed, e)
          end
      end
  end.

(** What the dispatch loop receives on [resp] from a [responseFetch] that
    has got so far. *)
Definition resp_recv (f : list gostring * list gostring * fetch_end) : list recv :=
  let '(sent, _, e) := f in
  map RecvLine sent ++ match e with Closed => [RecvClosed] | _ => [] end.


(** ** The machine at a panic, further *)

(** The computations that keep the machine at a panic return what those of
    [M] return, and panic where they panic. *)
Lemma cmdParseRun_T_agrees (cmds : list cdef) (cmdLn : gostring) (m : machine) :
  cmdParseRun cmds cmdLn m
  = match cmdParseRun_T cmds cmdLn m with
    | (m', Some a) => Some (a, m')
    | (_, None) => None
    end.
Proof.
  unfold cmdParseRun, cmdParseRun_T.
  destruct (cmdNormalize cmdLn) as [cmdNm cmdArg].
  destruct (cmdSelect cmds cmdNm) as [cmd [e|]]; [reflexivity|].
  unfold mbind, M_bind, bind, and_then, call_Parse, call_Parse_T.
  destruct (Parse (cdef_Cdef cmd)) as [p|]; [|reflexivity].
  unfold mbind, M_bind, bind, and_then, step, emit, on_backend.
  cbn [backend events helps].
  destruct (p (cmdNm ++ str " " ++ cmdArg) (backend m)) as [[args [e|]] w1];
    [reflexivity|].
  unfold call_Run, call_Run_T.
  destruct (Run (cdef_Cdef cmd)) as [[hr|run]|]; [| |reflexivity].
  - unfold mbind, M_bind, bind, and_then, step, emit, helpRunner_Run,
      helpRunner_Run_T, mbind, M_bind, bind, and_then, step, emit, deref_cs, ret.
    cbn [backend events helps].
    destruct (helps m !! hr) as [cs|]; reflexivity.
  - unfold mbind, M_bind, bind, and_then, step, emit, on_backend.
    cbn [backend events helps].
    destruct (run args w1) as [[e|] w2]; reflexivity.
Qed.

End Processor.

Arguments Parser : clear implicits.
Arguments Runner : clear implicits.
Arguments Cdef : clear implicits.
Arguments cdef : clear implicits.
Arguments cmds : clear implicits.
Arguments event : clear implicits.
Arguments machine : clear implicits.
Arguments M : clear implicits.
Arguments loop : clear implicits.
Arguments goroutine : clear implicits.
Arguments runtime : clear implicits.


(** * The processor on concrete tables

    The backend counts the commands run; the case table is the Latin-1
    fragment of Go's. *)

Definition lowerCase : rune -> rune := unicode.latin1LowerCase.

(** [runNone] of the package's tests. *)
Definition runNone : Runner nat := Runner_of (fun _ w => (None, S w)).

(** The command of [Test_Start_ThenImmediatelyShutdown], its long name
    capitalized. *)
Definition testDef : Cdef nat :=
  mkCdef (str "t") (str "Test") [] (str "Just a test function!")
    (Some ParseNone) (Some runNone).

(** A parser and a runner in the manner of [runAway] of the tests: the
    only argument accepted is ["Away"]. *)
Definition parseAway : Parser nat :=
  fun cmdLn w =>
    if string_eq cmdLn (str "run Away") || string_eq cmdLn (str "r Away")
    then ((Some [str "Away"], None), w)
    else ((None, Some (str "command syntax invalid: '" ++ cmdLn ++ str "'")), w).

Definition runAway : Runner nat :=
  Runner_of (fun args w =>
    match args with
    | Some [a] =>
        if string_eq a (str "Away") then (None, S w)
        else (Some (str "<WhereTo> argument must be 'Away'"), w)
    | _ => (Some (str "missing <WhereTo> argument"), w)
    end).

Definition runDef : Cdef nat :=
  mkCdef (str "r") (str "run") (str "<WhereTo>") (str "Run a test!")
    (Some parseAway) (Some runAway).

(** A help command without a short name, run by the [helpRunner] object at
    address 0. *)
Definition helpDef : Cdef nat :=
  mkCdef (str "") (str "help") [] (str "Lists the commands")
    (Some ParseNone) (Some (helpRunner_at 0)).

(** A definition without a long name, whose short name is therefore the
    longer of the two. *)
Definition noLongDef : Cdef nat :=
  mkCdef (str "x") (str "") [] (str "No long name")
    (Some ParseNone) (Some runNone).

Definition defs : list (Cdef nat) := [runDef; testDef; helpDef].
Definition table : cmds nat := mkcmds (map (lowered lowerCase) defs).
Definition store : gmap nat (cmds nat) := <[0%nat := table]> ∅.
Definition machine0 : machine nat := mkmachine 0%nat [] store.
Definition runtime0 : runtime nat unit := mkruntime ∅ 0 [].

Lemma latin1LowerCase_sound : caseTable_sound lowerCase.
Proof.
  unfold lowerCase, unicode.latin1LowerCase. split; unfold unicode.MaxASCII.
  - intros r Hr. unfold unicode.ToLower, unicode.MaxASCII.
    destruct ((192 <=? r) && (r <=? 222) && negb (r =? 215)) eqn:E.
    + apply andb_true_iff in E as [E _]. apply andb_true_iff in E as [E1 E2].
      apply Z.leb_le in E1. apply Z.leb_le in E2.
      destruct (Z.leb_spec (r + 32) 127); [lia|].
      destruct (Z.leb_spec (r + 32) 222); [lia|].
      rewrite andb_false_r. reflexivity.
    + destruct (Z.leb_spec r 127); [lia|]. rewrite E. reflexivity.
  - intros r Hr.
    destruct ((192 <=? r) && (r <=? 222) && negb (r =? 215)) eqn:E; [|reflexivity].
    apply andb_true_iff in E as [E _]. apply andb_true_iff in E as [E1 E2].
    apply Z.leb_le in E1. apply Z.leb_le in E2.
    destruct (unicode.IsSpace (r + 32)) eqn:S1; [apply IsSpace_true in S1; lia|].
    destruct (unicode.IsSpace r) eqn:S2; [apply IsSpace_true in S2; lia|].
    reflexivity.
  - intros r Hr Hs. apply IsSpace_true in Hs.
    destruct ((192 <=? r) && (r <=? 222) && negb (r =? 215)) eqn:E; [|reflexivity].
    apply andb_true_iff in E as [E _]. apply andb_true_iff in E as [E1 E2].
    apply Z.leb_le in E1. apply Z.leb_le in E2. lia.
Qed.

Lemma validate_defs :
  validate lowerCase defs ∅ = ((Some table, None), store).
Proof. reflexivity. Qed.

Lemma table_callable : Forall (callable store) (cmmds table).
Proof. exact (validate_callable lowerCase defs ∅ store table validate_defs). Qed.

(** An unknown command: the error goes to the error sink, nothing runs. *)
Lemma cmdParseRun_pipeline_witness :
  Forall (callable (helps machine0)) (cmmds table) /\
  exists m',
    cmdParseRun lowerCase (cmmds table) (str "bogus" ++ nl) machine0 = Some (tt, m') /\
    backend m' = 0%nat /\
    events m' = [EvStderr (unknownCommand (str "bogus") ++ nl)].
Proof.
  split; [exact table_callable|].
  pose proof (cmdParseRun_pipeline lowerCase (cmmds table) (str "bogus" ++ nl)
                machine0 table_callable) as H.
  assert (En : cmdNormalize lowerCase (str "bogus" ++ nl) = (str "bogus", []))
    by reflexivity.
  assert (Es : cmdSelect (cmmds table) (str "bogus")
               = (cdef_zero, Some (unknownCommand (str "bogus"))))
    by reflexivity.
  rewrite En in H. cbv beta iota zeta in H. rewrite Es in H.
  destruct H as (m' & E & _ & _ & Hb & Hev).
  exists m'. split; [exact E|]. split; [exact Hb | exact Hev].
Defined.


(** The two lines of [Test_ExecuteRunCmd]: the parser rejects the first,
    whose runner is then not called, and accepts the second. *)
Example run_home :
  cmdParseRun lowerCase (cmmds table) (str "run home" ++ nl) machine0
  = Some (tt, mkmachine 0%nat
                [EvParse (str "run") (str "run home");
                 EvStderr (str "command syntax invalid: 'run home'" ++ nl)]
                store).
Proof. reflexivity. Qed.

Example run_Away :
  cmdParseRun lowerCase (cmmds table) (str "run Away" ++ nl) machine0
  = Some (tt, mkmachine 1%nat
                [EvParse (str "run") (str "run Away");
                 EvRun (str "run") (Some [str "Away"])]
                store).
Proof. reflexivity. Qed.

(** A [helpRunner] that [validate] has not patched panics. *)
Example help_unpatched :
  cmdParseRun lowerCase (cmmds table) (str "help" ++ nl) (mkmachine 0%nat [] ∅) = None.
Proof. reflexivity. Qed.

(** The loop then leaves with the machine as the panic found it: the parser
    and the runner called, the header printed. *)
Example help_unpatched_loop :
  processCmdLn lowerCase (cmmds table) [RecvLine (str "help" ++ nl)]
    (mkmachine 0%nat [] ∅)
  = mkloop Panicked 1
      (mkmachine 0%nat
         [EvParse (str "help") (str "help "); EvRun (str "help") None;
          EvStdout (str "Help :" ++ nl)]
         ∅).
Proof. reflexivity. Qed.

(** The error for a sequence whose second definition alone is rejected,
    for want of a long name; nothing is said of its short name. *)
Lemma validate_reports_all_witness :
  [testDef; noLongDef] <> [] /\ NmLong noLongDef = [] /\
  (validate lowerCase [testDef; noLongDef] ∅).1.2
  = Some (str "%!s(<nil>)"
          ++ (str "%!s(<nil>)" ++ msgLong (str "1") ++ nl) ++ nl) /\
  (msgShort (str "1") ∉ violations noLongDef (str "1")).
Proof.
  assert (Hne : [testDef; noLongDef] <> []) by discriminate.
  assert (HL : NmLong noLongDef = []) by reflexivity.
  split; [exact Hne|]. split; [exact HL|]. split.
  - exact (proj1 (proj2 (proj2 (proj2 (validate_reports_all lowerCase)))
                    [testDef; noLongDef] ∅ Hne)).
  - exact (proj1 (proj2 (proj2 (validate_reports_all lowerCase)))
             noLongDef (str "1") (str "1") HL).
Defined.

(** C2, as stated, fails: [noLongDef] lacks its long name and has a short
    name longer than the long one, and the error of [validate] reports the
    first and says nothing of the second. *)
Lemma validate_missing_long_name_hides_short :
  NmLong noLongDef = [] /\
  (len (NmLong noLongDef) < len (NmShort noLongDef))%nat /\
  mentions (validate lowerCase [noLongDef] ∅).1.2 (msgLong (str "0")) = true /\
  mentions (validate lowerCase [noLongDef] ∅).1.2 (str "short name") = false.
Proof.
  split; [reflexivity|]. split; [simpl; lia|]. split; vm_compute; reflexivity.
Qed.

(** C3.  On [testDef; noLongDef] the error of [validate] is not nil and
    neither is the table returned with it: the entry of the accepted
    definition and, at the index of the rejected one, the zero entry. *)
Theorem validate_error_with_table :
  exists errs,
    validate lowerCase [testDef; noLongDef] ∅
    = ((Some (mkcmds [lowered lowerCase testDef; cdef_zero]), Some errs), ∅).
Proof. eexists. vm_compute. reflexivity. Qed.

(** [start] drops that table: it returns a nil channel and starts nothing. *)
Example start_error :
  exists errs,
    start lowerCase [testDef; noLongDef] tt runtime0
    = Some ((None, Some errs), runtime0).
Proof. eexists. vm_compute. reflexivity. Qed.

Lemma cmdNormalize_first_space_witness :
  strings.TrimSpace (str " list  all ") = str "list" ++ 32 :: str " all" /\
  (32 ∉ str "list") /\
  cmdNormalize lowerCase (str " list  all ")
  = (strings.ToLower lowerCase (strings.TrimSpace (str "list")),
     strings.TrimSpace (str " all")).
Proof.
  assert (H : 32 ∉ str "list").
  { intros Hin. apply list_elem_of_In in Hin. simpl in Hin.
    repeat (destruct Hin as [Hin|Hin]; [discriminate|]). exact Hin. }
  split; [reflexivity|]. split; [exact H|].
  apply (proj1 (proj2 (cmdNormalize_first_space lowerCase))
           (str " list  all ") (str "list") (str " all") eq_refl H).
Defined.

(** C4, as stated, fails: a tab between the name and the argument does not
    separate them. *)
Lemma cmdNormalize_tab_not_split :
  cmdNormalize lowerCase (str "run" ++ tab ++ str "Away")
  = (str "run" ++ tab ++ str "away", []) /\
  cmdNormalize lowerCase (str "run" ++ tab ++ str "Away") <> (str "run", str "Away").
Proof. split; [reflexivity | discriminate]. Qed.

(** The long name ["Test"] answers to ["TEST"]. *)
Lemma cmdSelect_first_match_witness :
  validate lowerCase defs ∅ = ((Some table, None), store) /\
  exists c',
    cmdSelect (cmmds table) (strings.ToLower lowerCase (str "TEST")) = (c', None).
Proof.
  split; [exact validate_defs|].
  destruct (proj2 (cmdSelect_first_match lowerCase) defs ∅ store table validate_defs)
    as [_ H].
  apply (H testDef (str "TEST")).
  - right. left.
  - right. reflexivity.
Defined.

Lemma Start_result_witness :
  defs <> [] /\ Forall (fun c => wellFormed c = true) defs /\
  exists h,
    Start tt lowerCase defs runtime0
    = Some ((Some 0%nat, None),
            mkruntime h 1 [go_processCmdLn (map (lowered lowerCase) defs) 0 tt]).
Proof.
  assert (Hok : Forall (fun c => wellFormed c = true) defs)
    by (repeat constructor).
  split; [discriminate|]. split; [exact Hok|].
  apply (proj2 (Start_result tt lowerCase) defs runtime0); [discriminate | exact Hok].
Defined.

(** The loop goes on after an unknown command and after [false], returns
    on [true], and does not see the line that follows. *)
Lemma processCmdLn_two_states_witness :
  Forall (callable (helps machine0)) (cmmds table) /\
  at_ (processCmdLn lowerCase (cmmds table)
         [RecvLine (str "bogus" ++ nl); RecvShutdown false; RecvShutdown true;
          RecvLine (str "t" ++ nl)] machine0)
  = Terminated.
Proof.
  split; [exact table_callable|].
  exact (proj2 (proj2 (proj2 (proj2 (processCmdLn_two_states lowerCase))))
           (cmmds table)
           [RecvLine (str "bogus" ++ nl); RecvShutdown false; RecvShutdown true;
            RecvLine (str "t" ++ nl)]
           machine0 table_callable).
Defined.

Lemma cmdNormalize_idempotent_witness :
  cmdNormalize lowerCase (str "  Run   Away  " ++ nl) = (str "run", str "Away") /\
  cmdNormalize lowerCase (str "run" ++ str " " ++ str "Away") = (str "run", str "Away").
Proof.
  split; [reflexivity|].
  apply (cmdNormalize_idempotent lowerCase latin1LowerCase_sound
           (str "  Run   Away  " ++ nl)).
  reflexivity.
Defined.

Lemma ParseNone_never_fails_witness :
  cmdSelect (cmmds table) (cmdNormalize lowerCase (str "TEST" ++ nl)).1
  = (lowered lowerCase testDef, None) /\
  cmdParseRun lowerCase (cmmds table) (str "TEST" ++ nl) machine0
  = Some (tt, mkmachine 1%nat
                [EvParse (str "Test") (str "test "); EvRun (str "Test") None]
                store).
Proof.
  split; [reflexivity|].
  rewrite (proj2 (proj2 (ParseNone_never_fails lowerCase)) (cmmds table)
             (str "TEST" ++ nl) machine0 (lowered lowerCase testDef) eq_refl eq_refl).
  reflexivity.
Defined.

(** A blank line runs the help command, which has no short name. *)
Lemma blank_line_selects_empty_short_name_witness :
  validate lowerCase defs ∅ = ((Some table, None), store) /\
  Exists (fun c => NmShort c = []) defs /\
  Forall (fun r => unicode.IsSpace r = true) (str "  " ++ tab ++ nl) /\
  cmdNormalize lowerCase (str "  " ++ tab ++ nl) = ([], []).
Proof.
  assert (Hex : Exists (fun c : Cdef nat => NmShort c = []) defs).
  { right. right. left. reflexivity. }
  assert (Hblank : Forall (fun r => unicode.IsSpace r = true) (str "  " ++ tab ++ nl)).
  { repeat constructor. }
  split; [exact validate_defs|]. split; [exact Hex|]. split; [exact Hblank|].
  exact (proj1 (blank_line_selects_empty_short_name lowerCase defs ∅ store table
                  (str "  " ++ tab ++ nl) validate_defs Hex Hblank)).
Defined.

Example blank_line_help :
  cmdSelect (cmmds table) [] = (lowered lowerCase helpDef, None) /\
  exists m',
    cmdParseRun lowerCase (cmmds table) (str "  " ++ tab ++ nl) machine0 = Some (tt, m') /\
    take 3 (events m')
    = [EvParse (str "help") (str " "); EvRun (str "help") None;
       EvStdout (str "Help :" ++ nl)].
Proof. split; [reflexivity|]. eexists. split; reflexivity. Qed.


(** * The line reader on a [bufio.Reader] *)

(** [rCmdLn.ReadString('\n')]. *)
Definition readLine (b : bufio.Reader) : option ((gostring * error) * bufio.Reader) :=
  bufio.ReadString b 10.

Lemma cut_None (d : rune) (s : gostring) : bufio.cut d s = None -> d ∉ s.
Proof.
  induction s as [|r s IH]; simpl; intros H; [apply not_elem_of_nil|].
  destruct (Z.eqb_spec r d) as [->|Hne]; [discriminate|].
  destruct (bufio.cut d s) as [[line rest]|]; [discriminate|].
  apply not_elem_of_cons. split; [congruence | apply IH; reflexivity].
Qed.

Lemma cut_Some (d : rune) (s line rest : gostring) :
  bufio.cut d s = Some (line, rest) ->
  s = line ++ rest /\ exists body, line = body ++ [d] /\ d ∉ body.
Proof.
  revert line. induction s as [|r s IH]; simpl; intros line H; [discriminate|].
  destruct (Z.eqb_spec r d) as [->|Hne].
  - injection H as <- <-. split; [reflexivity|].
    exists []. split; [reflexivity | apply not_elem_of_nil].
  - destruct (bufio.cut d s) as [[line' rest']|]; [|discriminate].
    injection H as <- <-. destruct (IH line' eq_refl) as (-> & body & -> & Hb).
    split; [reflexivity|]. exists (r :: body). split; [reflexivity|].
    apply not_elem_of_cons. split; [congruence | exact Hb].
Qed.

(** X14.  Reading a source that delivers the data [s], [responseFetch]
    sends on [resp] the lines of [s], each up to and including its newline,
    in their order, for as long as the dispatch loop receives, and nothing
    of what follows the last newline: a last line without a newline is
    never sent.  With a loop that receives every line, when the source then
    fails it prints the one line ["Abort: unexpected "] and the error, and
    returns, which closes [resp]; when the source blocks instead it prints
    nothing and does not return.  With a loop that returns after [n] lines,
    fewer than [s] has, it has sent those [n] lines and is blocked for ever
    in the send of the next: it prints nothing and does not close [resp]. *)
Theorem responseFetch_lines
    (s : gostring) (fails : option gostring) (takes : option nat) (fuel : nat) :
  (length s < fuel)%nat ->
  exists lines tail,
    s = concat lines ++ tail /\ (10 ∉ tail) /\
    Forall (fun line => exists body, line = body ++ [10] /\ 10 ∉ body) lines /\
    responseFetch readLine fuel takes (bufio.mkReader s fails)
    = if match takes with
         | Some n => (n <? length lines)%nat
         | None => false
         end
      then (take (default 0%nat takes) lines, [], Sending)
      else (lines,
            match fails with
            | Some err => [str "Abort: unexpected " ++ err ++ nl]
            | None => []
            end,
            match fails with Some _ => Closed | None => Blocked end).
Proof.
  revert s takes. induction fuel as [|fuel IH]; intros s takes Hlen; [lia|].
  cbn [responseFetch]. unfold readLine at 1, bufio.ReadString. cbn [bufio.pending bufio.fails].
  destruct (bufio.cut 10 s) as [[line rest]|] eqn:E.
  - destruct (cut_Some _ _ _ _ E) as (Hs & body & Hline & Hbody).
    assert (Hrest : (length rest < fuel)%nat).
    { rewrite Hs, Hline, !length_app in Hlen. simpl in Hlen. lia. }
    destruct (IH rest (Nat.pred <$> takes) Hrest) as (lines & tail & Hr & Htail & Hall & Hrun).
    exists (line :: lines), tail.
    split; [simpl; rewrite <- app_assoc, <- Hr; exact Hs|].
    split; [exact Htail|].
    split; [constructor; [exists body; auto | exact Hall]|].
    destruct takes as [[|n]|].
    + reflexivity.
    + rewrite Hrun. cbn [fmap option_fmap option_map Nat.pred default length take].
      change (S n <? S (length lines))%nat with (n <? length lines)%nat.
      destruct (n <? length lines)%nat; reflexivity.
    + rewrite Hrun. reflexivity.
  - apply cut_None in E. exists [], s.
    split; [reflexivity|]. split; [exact E|]. split; [constructor|].
    destruct takes as [n|]; [destruct n|]; destruct fails; reflexivity.
Qed.

Lemma responseFetch_end (s : gostring) (fails : option gostring) (fuel : nat) :
  (length s < fuel)%nat ->
  exists lines printed,
    responseFetch readLine fuel None (bufio.mkReader s fails)
    = (lines, printed, match fails with Some _ => Closed | None => Blocked end).
Proof.
  revert s. induction fuel as [|fuel IH]; intros s Hlen; [lia|].
  cbn [responseFetch]. unfold readLine at 1, bufio.ReadString. cbn [bufio.pending bufio.fails].
  destruct (bufio.cut 10 s) as [[line rest]|] eqn:E.
  - destruct (cut_Some _ _ _ _ E) as (Hs & body & Hline & _).
    assert (Hrest : (length rest < fuel)%nat).
    { rewrite Hs, Hline, !length_app in Hlen. simpl in Hlen. lia. }
    destruct (IH rest Hrest) as (lines & printed & Hrun).
    cbn [fmap option_fmap option_map]. rewrite Hrun. eauto.
  - destruct fails; eauto.
Qed.

Lemma existsb_stops_lines (lines : list gostring) (rs : list recv) :
  existsb stops (map RecvLine lines ++ rs) = existsb stops rs.
Proof. induction lines as [|l lines IH]; [reflexivity | exact IH]. Qed.

(** X15.  With a table whose entries are callable and nothing sent on the
    shutdown channel, so that the loop receives every line, the loop fed by
    [responseFetch] returns, closing the shutdown channel once, when the
    source of the reader fails after its data, as at the end of a file;
    when the source blocks instead, the loop is still running after the
    last line and has closed nothing. *)
Theorem source_exhaustion {W : Type} (toLowerCase : rune -> rune)
    (cmds : list (cdef W)) (m : machine W)
    (s : gostring) (fails : option gostring) (fuel : nat) :
  Forall (callable (helps m)) cmds -> (length s < fuel)%nat ->
  let l := processCmdLn toLowerCase cmds
             (resp_recv (responseFetch readLine fuel None (bufio.mkReader s fails))) m in
  match fails with
  | Some _ => at_ l = Terminated /\ closes l = 1%nat
  | None => at_ l = Running /\ closes l = 0%nat
  end.
Proof.
  intros Hok Hlen. cbv zeta.
  destruct (responseFetch_end s fails fuel Hlen) as (lines & printed & ->).
  unfold resp_recv, processCmdLn.
  pose proof (loop_phase toLowerCase cmds
    (map RecvLine lines ++ match fails with Some _ => [RecvClosed] | None => [] end)
    0 m Hok) as Hat.
  pose proof (loop_closes toLowerCase cmds
    (map RecvLine lines ++ match fails with Some _ => [RecvClosed] | None => [] end)
    (mkloop Running 0 m) eq_refl) as Hcl.
  rewrite existsb_stops_lines in Hat.
  destruct fails as [err|]; cbn [existsb stops orb] in Hat;
    rewrite Hat in Hcl; (split; [exact Hat | exact Hcl]).
Qed.

(** ** The alternative names *)

Lemma str_inj (a b : string) : str a = str b -> a = b.
Proof.
  unfold str. intros H.
  rewrite <- (string_of_list_ascii_of_string a), <- (string_of_list_ascii_of_string b).
  f_equal. revert H. generalize (list_ascii_of_string b).
  induction (list_ascii_of_string a) as [|x xs IH]; intros [|y ys] H;
    try discriminate; [reflexivity|].
  simpl in H. injection H as Hxy Hrest. f_equal; [|apply IH, Hrest].
  apply N2Z.inj in Hxy.
  rewrite <- (ascii_N_embedding x), <- (ascii_N_embedding y), Hxy. reflexivity.
Qed.

(** X16.  The alternative name [validate] passes to [cdefVerify], the
    index of the definition in decimal, tells the definitions apart: two
    indices with the same text, or with the same message for a missing long
    name, are one index. *)
Theorem Itoa_injective (i j : nat) :
  (strconv.Itoa i = strconv.Itoa j -> i = j) /\
  (msgLong (strconv.Itoa i) = msgLong (strconv.Itoa j) -> i = j).
Proof.
  assert (H : strconv.Itoa i = strconv.Itoa j -> i = j).
  { unfold strconv.Itoa. intros E. apply str_inj in E.
    apply (f_equal NilEmpty.uint_of_string) in E. rewrite !NilEmpty.usu in E.
    injection E as E. apply (f_equal Nat.of_uint) in E.
    rewrite !DecimalNat.Unsigned.of_to in E. exact E. }
  split; [exact H|]. unfold msgLong. intros E. apply app_inv_head in E. exact (H E).
Qed.


(** * The further properties on concrete inputs *)

Lemma validation_error_text_witness :
  exists text,
    (validate lowerCase [noLongDef] ∅).1.2 = Some text /\
    exists rest, text = str "%!s(<nil>)%!s(<nil>)" ++ rest.
Proof.
  eexists. split; [vm_compute; reflexivity|].
  assert (Hne : [noLongDef] <> []) by discriminate.
  exact (proj1 (proj2 (validation_error_text lowerCase) [noLongDef] ∅ _ Hne eq_refl)).
Defined.

Lemma validate_keeps_order_witness :
  [testDef; noLongDef] <> [] /\
  exists cs,
    (validate lowerCase [testDef; noLongDef] ∅).1.1 = Some cs /\
    length (cmmds cs) = 2%nat.
Proof.
  assert (Hne : [testDef; noLongDef] <> []) by discriminate.
  split; [exact Hne|].
  destruct (validate_keeps_order lowerCase [testDef; noLongDef] ∅ Hne)
    as (cs & E & Hlen & _).
  exists cs. split; [exact E | exact Hlen].
Defined.

Lemma validate_patches_witness :
  exists cs,
    (validate lowerCase defs ∅).1.1 = Some cs /\
    (validate lowerCase defs ∅).2 !! 0%nat = Some cs.
Proof.
  apply (proj1 (validate_patches lowerCase defs ∅ 0)).
  exists helpDef. split; [right; right; left|]. split; reflexivity.
Defined.

Lemma help_lists_table_witness :
  validate lowerCase defs ∅ = ((Some table, None), store) /\
  exists m',
    helpRunner_Run 0 None machine0 = Some (None, m') /\
    length (events m') = 7%nat.
Proof.
  split; [exact validate_defs|].
  assert (Hin : helpDef ∈ defs) by (right; right; left).
  eexists. split.
  - exact (help_lists_table lowerCase defs ∅ store table helpDef 0 None machine0
             validate_defs Hin eq_refl eq_refl).
  - reflexivity.
Defined.

Lemma cmdNormalize_padding_witness :
  cmdNormalize lowerCase ((tab ++ str " ") ++ str "run Away" ++ nl)
  = cmdNormalize lowerCase (str "run Away").
Proof.
  assert (H1 : Forall (fun r => unicode.IsSpace r = true) (tab ++ str " "))
    by (repeat constructor).
  assert (H2 : Forall (fun r => unicode.IsSpace r = true) nl)
    by (repeat constructor).
  exact (proj1 (cmdNormalize_padding (W:=nat) lowerCase (tab ++ str " ")
                  (str "run Away") nl H1 H2)).
Defined.

Lemma cmdNormalize_case_witness :
  cmdNormalize lowerCase (strings.ToLower lowerCase (str "Run Away"))
  = (str "run", str "away").
Proof.
  exact (cmdNormalize_case lowerCase latin1LowerCase_sound (str "Run Away")).
Defined.

Lemma processCmdLn_after_return_witness :
  processCmdLn lowerCase (cmmds table)
    ([RecvLine (str "run home" ++ nl)] ++ RecvClosed :: [RecvLine (str "run Away" ++ nl)])
    machine0
  = processCmdLn lowerCase (cmmds table)
      ([RecvLine (str "run home" ++ nl)] ++ [RecvClosed]) machine0.
Proof.
  exact (processCmdLn_after_return lowerCase (cmmds table)
           [RecvLine (str "run home" ++ nl)] [RecvLine (str "run Away" ++ nl)]
           RecvClosed machine0 eq_refl).
Defined.

Lemma processCmdLn_log_grows_witness :
  Forall (callable (helps machine0)) (cmmds table) /\
  exists es,
    events (mach (processCmdLn lowerCase (cmmds table)
                    [RecvLine (str "run Away" ++ nl); RecvShutdown true] machine0))
    = events machine0 ++ es /\
    helps (mach (processCmdLn lowerCase (cmmds table)
                   [RecvLine (str "run Away" ++ nl); RecvShutdown true] machine0))
    = helps machine0.
Proof.
  split; [exact table_callable|].
  exact (processCmdLn_log_grows lowerCase (cmmds table)
           [RecvLine (str "run Away" ++ nl); RecvShutdown true] machine0 table_callable).
Defined.

(** The input of [Test_ExecuteRunCmd], its last line without a newline. *)
Definition input : gostring := str "run home" ++ nl ++ str "run Away".

Example responseFetch_input :
  responseFetch readLine 20 None (bufio.mkReader input (Some (str "EOF")))
  = ([str "run home" ++ nl], [str "Abort: unexpected EOF" ++ nl], Closed).
Proof. reflexivity. Qed.

(** The loop has returned without receiving a line: the reader holds the
    first line in its send. *)
Example responseFetch_no_receiver :
  responseFetch readLine 20 (Some 0%nat) (bufio.mkReader input (Some (str "EOF")))
  = ([], [], Sending).
Proof. reflexivity. Qed.

Lemma responseFetch_lines_witness :
  (length input < 20)%nat /\
  exists lines tail,
    input = concat lines ++ tail /\
    responseFetch readLine 20 None (bufio.mkReader input (Some (str "EOF")))
    = (lines, [str "Abort: unexpected " ++ str "EOF" ++ nl], Closed).
Proof.
  assert (Hlen : (length input < 20)%nat) by (vm_compute; lia).
  split; [exact Hlen|].
  destruct (responseFetch_lines input (Some (str "EOF")) None 20 Hlen)
    as (lines & tail & Hs & _ & _ & E).
  exists lines, tail. split; [exact Hs | exact E].
Defined.

Lemma source_exhaustion_witness :
  Forall (callable (helps machine0)) (cmmds table) /\
  (length input < 20)%nat /\
  at_ (processCmdLn lowerCase (cmmds table)
         (resp_recv (responseFetch readLine 20 None
                       (bufio.mkReader input (Some (str "EOF")))))
         machine0)
  = Terminated.
Proof.
  assert (Hlen : (length input < 20)%nat) by (vm_compute; lia).
  split; [exact table_callable|]. split; [exact Hlen|].
  exact (proj1 (source_exhaustion lowerCase (cmmds table) machine0 input
                  (Some (str "EOF")) 20 table_callable Hlen)).
Defined.

Lemma Itoa_injective_witness :
  strconv.Itoa 12 = str "12" /\ 12%nat = 12%nat.
Proof.
  split; [reflexivity|].
  exact (proj1 (Itoa_injective 12 12) eq_refl).
Defined.

End cmdp.
